(** * OSC messages: arguments, wire codec and address matching

    A shallow embedding of package [osc] (files [argument.go] and the message
    file holding [Message], [ParseMessage], [GetRegex] and [VerifyParts]),
    followed by the properties of the specification that are about it.

    Conventions of the embedding:
    - a Go [[]byte] is a [list byte]; a Go [string] is a [string]; the
      conversions [string(b)] and [[]byte(s)] are [string_of_list_byte] and
      [list_byte_of_string];
    - [int32] and [int64] are [Z]; a [float32] is the [Z] holding its 32-bit
      IEEE-754 pattern;
    - a Go function returning [(T, error)] returns an [outcome T]: [Ret v]
      when the error is nil, [Raise e] when it is not, and [Panic] when the
      Go runtime faults (slice bounds out of range, failed type assertion). *)

From Stdlib Require Import ZArith List Bool Lia Arith.
From Stdlib.Strings Require Import String Ascii Byte.
From Stdlib Require Import DecimalString.
Import ListNotations.

Local Open Scope Z_scope.

(** ** Errors and outcomes *)

(** The four error values of the package, the two errors [io.ReadFull] gives
    to [binary.Read], and the errors of [regexp.Compile]. *)
Inductive error : Type :=
| ErrIndexOutOfBounds
| ErrInvalidTypeTag
| ErrNilWriter
| ErrParse
| io_EOF
| io_ErrUnexpectedEOF
| ErrMissingParen
| ErrUnexpectedParen
| ErrMissingRepeatArgument
| ErrInvalidRepeatOp
| ErrTrailingBackslash
| ErrOutsideFragment.

Inductive outcome (A : Type) : Type :=
| Ret (a : A)
| Raise (e : error)
| Panic.

Arguments Ret {A} a.
Arguments Raise {A} e.
Arguments Panic {A}.

Definition bind {A B : Type} (m : outcome A) (k : A -> outcome B) : outcome B :=
  match m with
  | Ret a => k a
  | Raise e => Raise e
  | Panic => Panic
  end.

Notation "x <- m ;; k" := (bind m (fun x => k))
  (at level 61, m at next level, right associativity).
Notation "' p <- m ;; k" := (bind m (fun x => match x with p => k end))
  (at level 61, p pattern, m at next level, right associativity).

Definition succeeds {A : Type} (m : outcome A) : bool :=
  match m with Ret _ => true | _ => false end.

Definition bytes : Type := list byte.

Definition len {A : Type} (l : list A) : Z := Z.of_nat (List.length l).

(** Go's [data[idx:]]: faults unless [0 <= idx <= len(data)]. *)
Definition slice_from (data : bytes) (idx : Z) : outcome bytes :=
  if (idx <? 0) || (len data <? idx) then Panic
  else Ret (skipn (Z.to_nat idx) data).

(** Go's [data[:idx]], with the same bounds: the buffer is taken to have no
    capacity beyond its length. *)
Definition slice_to (data : bytes) (idx : Z) : outcome bytes :=
  if (idx <? 0) || (len data <? idx) then Panic
  else Ret (firstn (Z.to_nat idx) data).

(** ** Type tags *)

(** Modelled from the spec: the constants [TypetagInt], [TypetagFloat],
    [TypetagTrue], [TypetagFalse], [TypetagString] and [TypetagBlob] are
    declared outside the two files; the data-model table gives their values
    ([i], [f], [T], [F], [s], [b]). *)
Definition TypetagInt : byte := "i"%byte.
Definition TypetagFloat : byte := "f"%byte.
Definition TypetagTrue : byte := "T"%byte.
Definition TypetagFalse : byte := "F"%byte.
Definition TypetagString : byte := "s"%byte.
Definition TypetagBlob : byte := "b"%byte.

(** ** Binary primitives *)

Definition byte_val (b : byte) : Z := Z.of_N (Byte.to_N b).

(** Modelled from the spec: [byteOrder] is declared outside the two files;
    "all multi-byte numeric fields are big-endian".  This is
    [byteOrder.Uint32] on four bytes. *)
Definition be_uint32 (b0 b1 b2 b3 : byte) : Z :=
  Z.lor (Z.shiftl (byte_val b0) 24)
    (Z.lor (Z.shiftl (byte_val b1) 16)
       (Z.lor (Z.shiftl (byte_val b2) 8) (byte_val b3))).

(** The conversion [int32(u)] of a 32-bit pattern. *)
Definition int32_of_uint32 (u : Z) : Z :=
  if u <? 2 ^ 31 then u else u - 2 ^ 32.

(** [binary.Read(bytes.NewReader(data), byteOrder, &val)] for a 4-byte
    [val]: [io.ReadFull] gives [io.EOF] on an empty reader and
    [io.ErrUnexpectedEOF] on one to three bytes, and [val] is then left
    untouched; otherwise the 32-bit pattern read is returned. *)
Definition binary_Read32 (data : bytes) : outcome Z :=
  match data with
  | b0 :: b1 :: b2 :: b3 :: _ => Ret (be_uint32 b0 b1 b2 b3)
  | [] => Raise io_EOF
  | _ => Raise io_ErrUnexpectedEOF
  end.

(** The length of a field of [n] bytes once padded to a 4-byte boundary. *)
Definition padded_len (n : Z) : Z := n + (4 - n mod 4) mod 4.

(** Modelled from the spec: [Pad] is declared outside the two files;
    "appends zero bytes until total length is a multiple of 4". *)
Definition Pad (b : bytes) : bytes :=
  b ++ repeat x00 (Z.to_nat ((4 - len b mod 4) mod 4)).

(** Modelled from the spec: [OscString] is declared outside the two files;
    the address is written "as a NUL-terminated, 4-byte-padded string". *)
Definition OscString (s : string) : bytes :=
  Pad (list_byte_of_string s ++ [x00]).

(** [bytes.IndexByte]. *)
Fixpoint IndexByte (data : bytes) (c : byte) : option nat :=
  match data with
  | [] => None
  | b :: rest =>
      if Byte.eqb b c then Some O
      else match IndexByte rest c with
           | Some n => Some (S n)
           | None => None
           end
  end.

(** Modelled from the spec: [ReadString] is declared outside the two files;
    it "scans buf for a NUL byte, returns the string preceding it", and the
    bytes consumed are "the NUL-padded length (next multiple of 4 after
    including the terminator)".  The scan is not bounded: without a NUL in
    the buffer it runs past the end, which is a runtime fault. *)
Definition ReadString (data : bytes) : outcome (string * Z) :=
  match IndexByte data x00 with
  | Some n =>
      Ret (string_of_list_byte (firstn n data), padded_len (Z.of_nat n + 1))
  | None => Panic
  end.

(** Modelled from the spec: [ReadBlob] is declared outside the two files; it
    "takes exactly declaredLength bytes from buf" and reports
    "declaredLength rounded up to the next multiple of 4" as consumed.  The
    bytes are taken by slicing, which faults when the buffer is shorter. *)
Definition ReadBlob (length : Z) (data : bytes) : outcome (bytes * Z) :=
  b <- slice_to data length ;;
  Ret (b, padded_len length).

(** ** Arguments ([argument.go]) *)

(** Go's [==] on two [float32] values given by their bit patterns: a NaN
    equals nothing, the two zeros are equal, and any other value equals only
    itself. *)
Definition f32_is_nan (w : Z) : bool :=
  (Z.land (Z.shiftr w 23) 255 =? 255) && negb (Z.land w (2 ^ 23 - 1) =? 0).

Definition f32_is_zero (w : Z) : bool := Z.land w (2 ^ 31 - 1) =? 0.

Definition f32_eqb (x y : Z) : bool :=
  negb (f32_is_nan x) && negb (f32_is_nan y)
  && ((f32_is_zero x && f32_is_zero y) || (x =? y)).

(** [bytes.Equal]. *)
Fixpoint bytes_Equal (a b : bytes) : bool :=
  match a, b with
  | [], [] => true
  | x :: a', y :: b' => Byte.eqb x y && bytes_Equal a' b'
  | _, _ => false
  end.

Definition byte_neq (a b : byte) : bool := negb (Byte.eqb a b).

(** The interface [Argument], its five implementations [Int], [Float],
    [Bool], [String] and [Blob], and their methods. *)
Module Arg.

Inductive Argument : Type :=
| Int (i : Z)
| Float (f : Z)
| Bool (b : bool)
| String (s : string)
| Blob (b : bytes).

Definition Typetag (a : Argument) : byte :=
  match a with
  | Int _ => TypetagInt
  | Float _ => TypetagFloat
  | Bool b => if b then TypetagTrue else TypetagFalse
  | String _ => TypetagString
  | Blob _ => TypetagBlob
  end.

(** The type assertions [other.(Int)], ..., [other.(Blob)]; a failed one
    faults. *)
Definition as_Int (a : Argument) : outcome Z :=
  match a with Int i => Ret i | _ => Panic end.
Definition as_Float (a : Argument) : outcome Z :=
  match a with Float f => Ret f | _ => Panic end.
Definition as_Bool (a : Argument) : outcome bool :=
  match a with Bool b => Ret b | _ => Panic end.
Definition as_String (a : Argument) : outcome string :=
  match a with String s => Ret s | _ => Panic end.
Definition as_Blob (a : Argument) : outcome bytes :=
  match a with Blob b => Ret b | _ => Panic end.

(** [Equal], one branch per receiver type. *)
Definition Equal (a other : Argument) : outcome bool :=
  match a with
  | Int i =>
      if byte_neq (Typetag other) TypetagInt then Ret false
      else i2 <- as_Int other ;; Ret (i =? i2)
  | Float f =>
      if byte_neq (Typetag other) TypetagFloat then Ret false
      else f2 <- as_Float other ;; Ret (f32_eqb f f2)
  | Bool b =>
      if byte_neq (Typetag other) TypetagFalse
         && byte_neq (Typetag other) TypetagTrue then Ret false
      else b2 <- as_Bool other ;; Ret (Bool.eqb b b2)
  | String s =>
      if byte_neq (Typetag other) TypetagString then Ret false
      else s2 <- as_String other ;; Ret (String.eqb s s2)
  | Blob b =>
      if byte_neq (Typetag other) TypetagBlob then Ret false
      else b2 <- as_Blob other ;;
           if negb (len b =? len b2) then Ret false
           else Ret (bytes_Equal b b2)
  end.

(** The five typed readers. *)
Definition ReadInt32 (a : Argument) : outcome Z :=
  match a with Int i => Ret i | _ => Raise ErrInvalidTypeTag end.
Definition ReadFloat32 (a : Argument) : outcome Z :=
  match a with Float f => Ret f | _ => Raise ErrInvalidTypeTag end.
Definition ReadBool (a : Argument) : outcome bool :=
  match a with Bool b => Ret b | _ => Raise ErrInvalidTypeTag end.
Definition ReadString (a : Argument) : outcome string :=
  match a with String s => Ret s | _ => Raise ErrInvalidTypeTag end.
Definition ReadBlob (a : Argument) : outcome bytes :=
  match a with Blob b => Ret b | _ => Raise ErrInvalidTypeTag end.

End Arg.

(** [ParseArgument]: the argument, the number of bytes consumed, or an
    error. *)
Definition ParseArgument (tt : byte) (data : bytes) : outcome (Arg.Argument * Z) :=
  if Byte.eqb tt TypetagInt then
    let val := match binary_Read32 data with
               | Ret u => int32_of_uint32 u
               | _ => 0
               end in
    Ret (Arg.Int val, 4)
  else if Byte.eqb tt TypetagFloat then
    let val := match binary_Read32 data with
               | Ret u => u
               | _ => 0
               end in
    Ret (Arg.Float val, 4)
  else if Byte.eqb tt TypetagTrue then Ret (Arg.Bool true, 0)
  else if Byte.eqb tt TypetagFalse then Ret (Arg.Bool false, 0)
  else if Byte.eqb tt TypetagString then
    '(s, idx) <- ReadString data ;;
    Ret (Arg.String s, idx)
  else if Byte.eqb tt TypetagBlob then
    u <- binary_Read32 data ;;
    let length := int32_of_uint32 u in
    rest <- slice_from data 4 ;;
    '(b, bl) <- ReadBlob length rest ;;
    Ret (Arg.Blob b, bl + 4)
  else Raise ErrInvalidTypeTag.

(** Modelled from the spec: [ReadArguments] is declared outside the two
    files; "for each tag byte in the type-tag string, call parseArgument on
    the remaining buffer, append the resulting Argument, advance cursor by
    bytes consumed". *)
Fixpoint ReadArguments (typetags : bytes) (data : bytes)
  : outcome (list Arg.Argument) :=
  match typetags with
  | [] => Ret []
  | tag :: rest =>
      '(arg, idx) <- ParseArgument tag data ;;
      data' <- slice_from data idx ;;
      args <- ReadArguments rest data' ;;
      Ret (arg :: args)
  end.

(** ** Library functions on strings *)

Local Open Scope string_scope.

(** [strings.Split(s, sep)] for a separator of one character: one more
    segment than there are separators, never an empty result. *)
Fixpoint strings_Split (s : string) (sep : ascii) : list string :=
  match s with
  | EmptyString => [EmptyString]
  | String c rest =>
      if Ascii.eqb c sep then EmptyString :: strings_Split rest sep
      else match strings_Split rest sep with
           | p :: ps => String c p :: ps
           | [] => [String c EmptyString]
           end
  end.

(** [strings.Replace(s, old, new, -1)] for an [old] of one character. *)
Fixpoint strings_Replace (s : string) (old : ascii) (new : string) : string :=
  match s with
  | EmptyString => EmptyString
  | String c rest =>
      if Ascii.eqb c old then new ++ strings_Replace rest old new
      else String c (strings_Replace rest old new)
  end.

(** ** Package [regexp]

    A model of [regexp.Compile] and [Regexp.MatchString] on the part of
    the syntax that [GetRegex] produces from OSC patterns: literal ASCII
    characters, [.], [*], groups, [|], [^], [$] and backslash followed by
    ASCII punctuation.  [Compile] reports [ErrOutsideFragment] on anything
    else: character classes, [+], [?], counted repetition, Perl classes,
    bytes above 127 in the expression, and expressions with more than
    [structure_budget] groups and bars.  The library refuses an expression
    whose syntax tree is more than 1000 levels high; only groups and bars
    add levels, and the budget keeps the tree far below that height, so the
    refusal lies outside the part modelled.  No property below rests on an
    answer [ErrOutsideFragment].  The text is read as the library reads it,
    one UTF-8 code point at a time, a byte that starts no valid encoding
    counting as a code point of its own. *)
Module regexp.

Inductive Regexp : Type :=
| EmptyMatch
| Literal (c : ascii)
| AnyCharNotNL
| BeginText
| EndText
| Capture (r : Regexp)
| Star (r : Regexp)
| Concat (r1 r2 : Regexp)
| Alternate (r1 r2 : Regexp).

(** The parser keeps, for the group being read, the alternatives already
    closed by [|] and the items of the alternative being read, both most
    recent first, and a stack of the same for the groups around it. *)
Definition frame : Type := (list Regexp * list Regexp)%type.

Definition concat_of (seq : list Regexp) : Regexp :=
  fold_left (fun acc r => Concat r acc) seq EmptyMatch.

Definition alternate_of (alts seq : list Regexp) : Regexp :=
  fold_left (fun acc r => Alternate r acc) alts (concat_of seq).

Definition is_digit (c : ascii) : bool :=
  let n := nat_of_ascii c in ((48 <=? n) && (n <=? 57))%nat.

Definition is_alpha (c : ascii) : bool :=
  let n := nat_of_ascii c in
  (((65 <=? n) && (n <=? 90)) || ((97 <=? n) && (n <=? 122)))%nat.

Definition is_ascii (c : ascii) : bool := (nat_of_ascii c <? 128)%nat.

(** Characters with a meaning of their own in the syntax. *)
Definition is_meta (c : ascii) : bool :=
  existsb (Ascii.eqb c)
    ["("; ")"; "|"; "*"; "+"; "?"; "."; "^"; "$"; "\"; "["; "{"]%char.

(** The number of groups and bars an expression may hold. *)
Definition structure_budget : nat := 64.

Fixpoint parse (t : string) (alts seq : list Regexp) (stack : list frame)
  (lastRepeat : bool) (budget : nat) : outcome Regexp :=
  match t with
  | EmptyString =>
      match stack with
      | [] => Ret (alternate_of alts seq)
      | _ :: _ => Raise ErrMissingParen
      end
  | String c t' =>
      if Ascii.eqb c "(" then
        match budget with
        | O => Raise ErrOutsideFragment
        | S b => parse t' [] [] ((alts, seq) :: stack) false b
        end
      else if Ascii.eqb c "|" then
        match budget with
        | O => Raise ErrOutsideFragment
        | S b => parse t' (concat_of seq :: alts) [] stack false b
        end
      else if Ascii.eqb c ")" then
        match stack with
        | [] => Raise ErrUnexpectedParen
        | (a, s) :: st =>
            parse t' a (Capture (alternate_of alts seq) :: s) st false budget
        end
      else if Ascii.eqb c "^" then
        parse t' alts (BeginText :: seq) stack false budget
      else if Ascii.eqb c "$" then
        parse t' alts (EndText :: seq) stack false budget
      else if Ascii.eqb c "." then
        parse t' alts (AnyCharNotNL :: seq) stack false budget
      else if Ascii.eqb c "*" then
        if lastRepeat then Raise ErrInvalidRepeatOp
        else match seq with
             | [] => Raise ErrMissingRepeatArgument
             | r :: s => parse t' alts (Star r :: s) stack true budget
             end
      else if Ascii.eqb c "\" then
        match t' with
        | EmptyString => Raise ErrTrailingBackslash
        | String e t'' =>
            if is_ascii e && negb (is_digit e) && negb (is_alpha e) then
              parse t'' alts (Literal e :: seq) stack false budget
            else Raise ErrOutsideFragment
        end
      else if is_meta c || negb (is_ascii c) then Raise ErrOutsideFragment
      else parse t' alts (Literal c :: seq) stack false budget
  end.

Definition Compile (expr : string) : outcome Regexp :=
  parse expr [] [] [] false structure_budget.

(** [s] without its first [n] characters. *)
Fixpoint drop (n : nat) (s : string) : string :=
  match n, s with
  | S n', String _ s' => drop n' s'
  | _, _ => s
  end.

Definition between (lo hi : nat) (c : ascii) : bool :=
  let n := nat_of_ascii c in ((lo <=? n) && (n <=? hi))%nat.

(** The length an encoding that starts with byte [c] should have, and the
    bounds of its second byte: the table of package [utf8]. *)
Definition utf8_first (c : ascii) : option (nat * (nat * nat)) :=
  if between 194 223 c then Some (2, (128, 191))%nat
  else if between 224 224 c then Some (3, (160, 191))%nat
  else if between 225 236 c then Some (3, (128, 191))%nat
  else if between 237 237 c then Some (3, (128, 159))%nat
  else if between 238 239 c then Some (3, (128, 191))%nat
  else if between 240 240 c then Some (4, (144, 191))%nat
  else if between 241 243 c then Some (4, (128, 191))%nat
  else if between 244 244 c then Some (4, (128, 143))%nat
  else None.

(** The width of the code point at the head of [s], as
    [utf8.DecodeRuneInString] gives it: 1 for an ASCII byte and for a byte
    that starts no valid encoding, 2 to 4 for a valid encoding. *)
Definition rune_width (s : string) : nat :=
  match s with
  | EmptyString => 0
  | String c0 r =>
      if is_ascii c0 then 1
      else
        match utf8_first c0, r with
        | Some (2, (lo, hi)), String c1 _ =>
            if between lo hi c1 then 2 else 1
        | Some (3, (lo, hi)), String c1 (String c2 _) =>
            if between lo hi c1 && between 128 191 c2 then 3 else 1
        | Some (4, (lo, hi)), String c1 (String c2 (String c3 _)) =>
            if between lo hi c1 && between 128 191 c2 && between 128 191 c3
            then 4 else 1
        | _, _ => 1
        end
  end%nat.

(** Zero or more rounds of [step]; a round that consumes nothing is not
    repeated. *)
Fixpoint star_loop
  (step : bool -> string -> (bool -> string -> bool) -> bool)
  (fuel : nat) (bot : bool) (s : string) (k : bool -> string -> bool)
  : bool :=
  k bot s
  || match fuel with
     | O => false
     | S n =>
         step bot s
           (fun b' s' =>
              (String.length s' <? String.length s)%nat
              && star_loop step n b' s' k)
     end.

(** [matches r bot s k]: some prefix of [s] matches [r] and [k] accepts
    what follows; [bot] tells whether [s] starts at the beginning of the
    text. *)
Fixpoint matches (r : Regexp) (bot : bool) (s : string)
  (k : bool -> string -> bool) : bool :=
  match r with
  | EmptyMatch => k bot s
  | Literal c =>
      match s with
      | String x s' => Ascii.eqb x c && k false s'
      | EmptyString => false
      end
  | AnyCharNotNL =>
      match s with
      | String x s' =>
          negb (Ascii.eqb x "010") && k false (drop (rune_width s - 1) s')
      | EmptyString => false
      end
  | BeginText => bot && k bot s
  | EndText =>
      match s with
      | EmptyString => k bot s
      | String _ _ => false
      end
  | Capture r1 => matches r1 bot s k
  | Star r1 => star_loop (matches r1) (S (String.length s)) bot s k
  | Concat r1 r2 => matches r1 bot s (fun b' s' => matches r2 b' s' k)
  | Alternate r1 r2 => matches r1 bot s k || matches r2 bot s k
  end.

(** A match of [re] from the head of [s], or from a later code point;
    [fuel] bounds the number of code points stepped over. *)
Fixpoint search (fuel : nat) (re : Regexp) (bot : bool) (s : string) : bool :=
  matches re bot s (fun _ _ => true)
  || match fuel, s with
     | S n, String _ s' => search n re false (drop (rune_width s - 1) s')
     | _, _ => false
     end.

(** A match anywhere in [s]. *)
Definition MatchString (re : Regexp) (s : string) : bool :=
  search (String.length s) re true s.

End regexp.

(** ** Messages (the message file) *)

(** A [net.Addr], kept as the text of the address. *)
Definition Addr : Type := string.

Record Message : Type := mkMessage {
  Address : string;
  Arguments : list Arg.Argument;
  Sender : option Addr
}.

(** Modelled from the spec: the constant [MessageChar] is declared outside
    the two files; both strings are split "on /". *)
Definition MessageChar : ascii := "/"%char.

Definition NewMessage (addr : string) : outcome Message :=
  Ret {| Address := addr; Arguments := []; Sender := None |}.

(** The loop of [VerifyParts] over [p1[1:]], at index [i]; [p2[i+1]] is read
    with [nth], its index being in range whenever the loop is reached. *)
Fixpoint parts_loop (i : nat) (ps p2 : list string) : bool :=
  match ps with
  | [] => true
  | p :: rest =>
      if (String.length p =? 0)%nat
         || (String.length (nth (i + 1) p2 "") =? 0)%nat
      then false
      else parts_loop (S i) rest p2
  end.

(** [VerifyParts]: equal strings pass at once; otherwise both are split on
    [MessageChar]. *)
Definition VerifyParts (m1 m2 : string) : bool :=
  if String.eqb m1 m2 then true
  else
    let mc := MessageChar in
    let p1 := strings_Split m1 mc in
    let p2 := strings_Split m2 mc in
    if negb (List.length p1 =? List.length p2)%nat
       || (List.length p1 =? 0)%nat
    then false
    else parts_loop 0 (tl p1) p2.

(** [GetRegex]: the eight replacements in the order of the source, the two
    anchors, and the compilation. *)
Definition GetRegex (pattern : string) : outcome regexp.Regexp :=
  let pattern := strings_Replace pattern "." "\." in
  let pattern := strings_Replace pattern "(" "\(" in
  let pattern := strings_Replace pattern ")" "\)" in
  let pattern := strings_Replace pattern "*" ".*" in
  let pattern := strings_Replace pattern "{" "(" in
  let pattern := strings_Replace pattern "," "|" in
  let pattern := strings_Replace pattern "}" ")" in
  let pattern := strings_Replace pattern "?" "." in
  let pattern := "^" ++ pattern ++ "$" in
  regexp.Compile pattern.

(** [Match]: the part check, then the pattern compiled and run on the
    address. *)
Definition Match (msg : Message) (address : string) : outcome bool :=
  if negb (VerifyParts address (Address msg)) then Ret false
  else
    exp <- GetRegex (Address msg) ;;
    Ret (regexp.MatchString exp address).

(** [Typetags]: one tag per argument, then [Pad]. *)
Definition Typetags (msg : Message) : bytes :=
  Pad (map Arg.Typetag (Arguments msg)).

(** [Write] of a [bytes.Buffer]: appends, and never fails. *)
Definition Buffer_Write (w p : bytes) : outcome bytes := Ret (w ++ p)%list.

(** [Bytes]: the address and the type tags; the loop over the arguments is
    commented out in the source. *)
Definition Bytes (msg : Message) : outcome bytes :=
  let w : bytes := [] in
  w <- Buffer_Write w (OscString (Address msg)) ;;
  w <- Buffer_Write w (Typetags msg) ;;
  Ret w.

(** [ParseMessage]: after the type-tag string is read, [data = data[idx:]]
    is followed by the argument [data[idx:]] of [ReadArguments], with the
    same [idx]. *)
Definition ParseMessage (data : bytes) (sender : option Addr)
  : outcome Message :=
  '(address, idx) <- ReadString data ;;
  data <- slice_from data idx ;;
  '(typetags, idx) <- ReadString data ;;
  data <- slice_from data idx ;;
  rest <- slice_from data idx ;;
  args <- ReadArguments (list_byte_of_string typetags) rest ;;
  Ret {| Address := address; Arguments := args; Sender := sender |}.

(** ** Printing ([WriteTo] and [Print]) *)

(** [fmt]'s verbs [%d] on an [int32] and [%t] on a [bool]. *)
Definition format_d (i : Z) : string := NilZero.string_of_int (Z.to_int i).

Definition format_t (b : bool) : string := if b then "true" else "false".

(** An [io.Writer] is a state [W] with its method [Write], which returns
    the new state, the number of bytes written and the error, if any.  The
    verb [%f] on a [float32], given by its bit pattern, is left to
    [format_f]. *)
Section Printing.

Variable W : Type.
Variable Write : W -> bytes -> W * (Z * option error).
Variable format_f : Z -> string.

(** [fmt.Fprintf]: the text is formatted, then written in one call. *)
Definition Fprintf (w : W) (text : string) : W * (Z * option error) :=
  Write w (list_byte_of_string text).

(** [WriteTo], one branch per receiver type. *)
Definition WriteTo (a : Arg.Argument) (w : W) : W * (Z * option error) :=
  match a with
  | Arg.Int i => Fprintf w (format_d i)
  | Arg.Float f => Fprintf w (format_f f)
  | Arg.Bool b => Fprintf w (format_t b)
  | Arg.String s => Fprintf w s
  | Arg.Blob b => Write w b
  end.

(** The loop of [Print] over the arguments. *)
Fixpoint Print_arguments (args : list Arg.Argument) (w : W)
  : W * option error :=
  match args with
  | [] => (w, None)
  | a :: rest =>
      let '(w', (_, err)) := WriteTo a w in
      match err with
      | Some e => (w', Some e)
      | None => Print_arguments rest w'
      end
  end.

(** [Print]: the address and the padded type tags in one write, then the
    arguments. *)
Definition Print (msg : Message) (w : W) : W * option error :=
  let '(w', (_, err)) :=
    Fprintf w (Address msg ++ string_of_list_byte (Typetags msg)) in
  match err with
  | Some e => (w', Some e)
  | None => Print_arguments (Arguments msg) w'
  end.

End Printing.

(** ** Vocabulary of the properties *)

(** The variant of an argument. *)
Inductive kind : Type := KInt | KFloat | KBool | KString | KBlob.

Definition kind_of (a : Arg.Argument) : kind :=
  match a with
  | Arg.Int _ => KInt
  | Arg.Float _ => KFloat
  | Arg.Bool _ => KBool
  | Arg.String _ => KString
  | Arg.Blob _ => KBlob
  end.


(** Which of the five typed readers succeed on [a], in the order
    [ReadInt32], [ReadFloat32], [ReadBool], [ReadString], [ReadBlob]. *)
Definition accessor_successes (a : Arg.Argument) : list bool :=
  [ succeeds (Arg.ReadInt32 a); succeeds (Arg.ReadFloat32 a);
    succeeds (Arg.ReadBool a); succeeds (Arg.ReadString a);
    succeeds (Arg.ReadBlob a) ].

Definition is_raise {A : Type} (m : outcome A) : bool :=
  match m with Raise _ => true | _ => false end.

(** The segments of [s] between slashes. *)
Definition parts (s : string) : list string := strings_Split s MessageChar.

(** Some segment of [s] other than the first is empty. *)
Definition has_empty_part (s : string) : Prop :=
  exists i : nat, (1 <= i)%nat /\ nth_error (parts s) i = Some "".

(** A character that neither [GetRegex] nor the expression syntax treats
    specially. *)
Definition is_plain (c : ascii) : bool :=
  regexp.is_ascii c && negb (regexp.is_meta c)
  && negb (existsb (Ascii.eqb c) [")"; "}"; ","]%char).

Fixpoint all_plain (s : string) : bool :=
  match s with
  | EmptyString => true
  | String c rest => is_plain c && all_plain rest
  end.

(** The expression of a run of literal characters followed by [tail]. *)
Fixpoint literals (s : string) (tail : regexp.Regexp) : regexp.Regexp :=
  match s with
  | EmptyString => tail
  | String c rest => regexp.Concat (regexp.Literal c) (literals rest tail)
  end.


(** A message with one integer argument, and the same with another value. *)
Definition msg_int (v : Z) : Message :=
  {| Address := "/a"; Arguments := [Arg.Int v]; Sender := None |}.

(** A message with four integer arguments. *)
Definition msg_four_ints : Message :=
  {| Address := "/a";
     Arguments := [Arg.Int 1; Arg.Int 2; Arg.Int 3; Arg.Int 4];
     Sender := None |}.

(** A message without arguments. *)
Definition msg_no_args : Message :=
  {| Address := "/a"; Arguments := []; Sender := None |}.

(** The wire form of address [/a], tag string [i], and the two integers 5
    and 7. *)
Definition buf_five_seven : bytes :=
  [ "/"; "a"; x00; x00;
    "i"; x00; x00; x00;
    x00; x00; x00; x05;
    x00; x00; x00; x07 ]%byte.

(** A blob field declaring 8 bytes and holding 2. *)
Definition buf_short_blob : bytes := [x00; x00; x00; x08; x01; x02]%byte.

(** A float argument holding a NaN. *)
Definition is_nan_arg (a : Arg.Argument) : bool :=
  match a with
  | Arg.Float f => f32_is_nan f
  | _ => false
  end.

(** The six tags [ParseArgument] knows. *)
Definition known_tag (t : byte) : bool :=
  existsb (Byte.eqb t)
    [TypetagInt; TypetagFloat; TypetagTrue; TypetagFalse; TypetagString;
     TypetagBlob].

(** The big-endian value of four bytes. *)
Definition be_value (b0 b1 b2 b3 : byte) : Z :=
  (byte_val b0 * 2 ^ 24 + byte_val b1 * 2 ^ 16 + byte_val b2 * 2 ^ 8
   + byte_val b3)%Z.

(** What the eight replacements of [GetRegex] make of one character. *)
Definition pattern_char (c : ascii) : string :=
  if Ascii.eqb c "." then "\."
  else if Ascii.eqb c "(" then "\("
  else if Ascii.eqb c ")" then "\)"
  else if Ascii.eqb c "*" then ".*"
  else if Ascii.eqb c "{" then "("
  else if Ascii.eqb c "," then "|"
  else if Ascii.eqb c "}" then ")"
  else if Ascii.eqb c "?" then "."
  else String c EmptyString.

Fixpoint translate (p : string) : string :=
  match p with
  | EmptyString => EmptyString
  | String c rest => pattern_char c ++ translate rest
  end.




(** A covered character that takes no part in an alternation and is not an
    anchor: plain, or one of [.], [(], [)], [?] and the star. *)
Definition is_glob (c : ascii) : bool :=
  is_plain c || existsb (Ascii.eqb c) ["."; "("; ")"; "?"; "*"]%char.

Fixpoint all_glob (s : string) : bool :=
  match s with
  | EmptyString => true
  | String c rest => is_glob c && all_glob rest
  end.

Definition not_newline (c : ascii) : bool := negb (Ascii.eqb c "010").

Fixpoint all_ascii (s : string) : bool :=
  match s with
  | EmptyString => true
  | String c rest => regexp.is_ascii c && all_ascii rest
  end.


(** Any run of characters, newlines apart, followed by what [rest]
    accepts. *)
Fixpoint glob_star (rest : string -> bool) (a : string) : bool :=
  rest a
  || match a with
     | String x a' => not_newline x && glob_star rest a'
     | EmptyString => false
     end.

(** Matching by hand for a pattern without alternation: [?] stands for one
    character and the star for any run of characters, newlines apart; any
    other character stands for itself. *)
Fixpoint glob (p : string) : string -> bool :=
  match p with
  | EmptyString =>
      fun a => match a with EmptyString => true | String _ _ => false end
  | String c rest =>
      if Ascii.eqb c "?" then
        fun a =>
          match a with
          | String x a' => not_newline x && glob rest a'
          | EmptyString => false
          end
      else if Ascii.eqb c "*" then glob_star (glob rest)
      else
        fun a =>
          match a with
          | String x a' => Ascii.eqb x c && glob rest a'
          | EmptyString => false
          end
  end.

(** The expression of one character of such a pattern, and of a run of
    them followed by [tail]. *)
Definition item (c : ascii) : regexp.Regexp :=
  if Ascii.eqb c "?" then regexp.AnyCharNotNL
  else if Ascii.eqb c "*" then regexp.Star regexp.AnyCharNotNL
  else regexp.Literal c.

Fixpoint items (s : string) (tail : regexp.Regexp) : regexp.Regexp :=
  match s with
  | EmptyString => tail
  | String c rest => regexp.Concat (item c) (items rest tail)
  end.

(** The text [WriteTo] writes for an argument. *)
Definition text_of (format_f : Z -> string) (a : Arg.Argument) : bytes :=
  match a with
  | Arg.Int i => list_byte_of_string (format_d i)
  | Arg.Float f => list_byte_of_string (format_f f)
  | Arg.Bool b => list_byte_of_string (format_t b)
  | Arg.String s => list_byte_of_string s
  | Arg.Blob b => b
  end.

(** What [Print] writes, one piece per call of [Write]. *)
Definition pieces (format_f : Z -> string) (msg : Message) : list bytes :=
  (list_byte_of_string (Address msg) ++ Typetags msg)%list
  :: map (text_of format_f) (Arguments msg).

(** A [bytes.Buffer] as a writer: every write is appended whole. *)
Definition Buffer_sink (w p : bytes) : bytes * (Z * option error) :=
  ((w ++ p)%list, (len p, None)).

(** A writer that takes [n] writes whole and fails on the next ones with
    [e], writing nothing. *)
Definition Budget_sink (e : error) (w : nat * bytes) (p : bytes)
  : (nat * bytes) * (Z * option error) :=
  match fst w with
  | O => (w, (0%Z, Some e))
  | S n => ((n, (snd w ++ p)%list), (len p, None))
  end.

(** ** Properties of the arguments *)

(** C7. Accessor exclusivity: on every argument exactly one of the five typed
    readers succeeds, the one of the argument's own variant, and it returns
    the stored value; each of the other four returns [ErrInvalidTypeTag]. *)
Theorem accessor_exclusivity :
  forall a : Arg.Argument,
    count_occ bool_dec (accessor_successes a) true = 1%nat
    /\ match a with
       | Arg.Int i =>
           Arg.ReadInt32 a = Ret i
           /\ Arg.ReadFloat32 a = Raise ErrInvalidTypeTag
           /\ Arg.ReadBool a = Raise ErrInvalidTypeTag
           /\ Arg.ReadString a = Raise ErrInvalidTypeTag
           /\ Arg.ReadBlob a = Raise ErrInvalidTypeTag
       | Arg.Float f =>
           Arg.ReadInt32 a = Raise ErrInvalidTypeTag
           /\ Arg.ReadFloat32 a = Ret f
           /\ Arg.ReadBool a = Raise ErrInvalidTypeTag
           /\ Arg.ReadString a = Raise ErrInvalidTypeTag
           /\ Arg.ReadBlob a = Raise ErrInvalidTypeTag
       | Arg.Bool b =>
           Arg.ReadInt32 a = Raise ErrInvalidTypeTag
           /\ Arg.ReadFloat32 a = Raise ErrInvalidTypeTag
           /\ Arg.ReadBool a = Ret b
           /\ Arg.ReadString a = Raise ErrInvalidTypeTag
           /\ Arg.ReadBlob a = Raise ErrInvalidTypeTag
       | Arg.String s =>
           Arg.ReadInt32 a = Raise ErrInvalidTypeTag
           /\ Arg.ReadFloat32 a = Raise ErrInvalidTypeTag
           /\ Arg.ReadBool a = Raise ErrInvalidTypeTag
           /\ Arg.ReadString a = Ret s
           /\ Arg.ReadBlob a = Raise ErrInvalidTypeTag
       | Arg.Blob b =>
           Arg.ReadInt32 a = Raise ErrInvalidTypeTag
           /\ Arg.ReadFloat32 a = Raise ErrInvalidTypeTag
           /\ Arg.ReadBool a = Raise ErrInvalidTypeTag
           /\ Arg.ReadString a = Raise ErrInvalidTypeTag
           /\ Arg.ReadBlob a = Ret b
       end.
Proof.
  intros a; destruct a; split; try reflexivity; repeat split.
Qed.

Lemma bytes_Equal_spec (a b : bytes) : bytes_Equal a b = true <-> a = b.
Proof.
  revert b; induction a as [|x a IH]; intros [|y b]; simpl;
    try (split; [discriminate | discriminate]); try tauto.
  rewrite andb_true_iff, IH. split.
  - intros [Hxy ->]. apply Byte.byte_dec_bl in Hxy. now subst.
  - intros H; injection H as -> ->. split; [apply Byte.byte_dec_lb|]; reflexivity.
Qed.



(** C10. On tag [i] or [f], [ParseArgument] never returns an error: it
    reports 4 bytes consumed on every buffer, and on a buffer of fewer than
    4 bytes the failed read is dropped and the value is zero. *)
Theorem ParseArgument_int_float_never_fail :
  forall data : bytes,
    (exists v : Z, ParseArgument TypetagInt data = Ret (Arg.Int v, 4%Z))
    /\ (exists v : Z, ParseArgument TypetagFloat data = Ret (Arg.Float v, 4%Z))
    /\ ((len data < 4)%Z ->
        is_raise (binary_Read32 data) = true
        /\ ParseArgument TypetagInt data = Ret (Arg.Int 0, 4%Z)
        /\ ParseArgument TypetagFloat data = Ret (Arg.Float 0, 4%Z)).
Proof.
  intros data. split; [|split].
  - unfold ParseArgument; simpl. eexists; reflexivity.
  - unfold ParseArgument; simpl. eexists; reflexivity.
  - intros Hlen. unfold len in Hlen.
    destruct data as [|b0 [|b1 [|b2 [|b3 rest]]]]; simpl in Hlen;
      try lia; repeat split.
Qed.

(** A buffer of two bytes read as an integer and as a float. *)
Lemma ParseArgument_int_float_never_fail_witness :
  (len [x01; x02]%byte < 4)%Z
  /\ ParseArgument TypetagInt [x01; x02]%byte = Ret (Arg.Int 0, 4%Z)
  /\ ParseArgument TypetagFloat [x01; x02]%byte = Ret (Arg.Float 0, 4%Z).
Proof.
  assert (H : (len [x01; x02]%byte < 4)%Z) by (vm_compute; reflexivity).
  split; [exact H|].
  exact (proj2 (proj2 (proj2 (ParseArgument_int_float_never_fail
                               [x01; x02]%byte)) H)).
Defined.

(** ** Properties of the message codec *)

Local Open Scope list_scope.

(** C2. Serialization completeness does not hold of [Bytes]: the buffer is
    the address field followed by the type-tag field and nothing else, so
    two messages that differ only in the value of an argument serialize to
    the same eight bytes. *)
Theorem Bytes_omits_payloads :
  (forall msg : Message,
      Bytes msg = Ret (OscString (Address msg) ++ Typetags msg)%list)
  /\ Bytes (msg_int 1)
     = Ret ["/"; "a"; x00; x00; "i"; x00; x00; x00]%byte
  /\ Bytes (msg_int 1) = Bytes (msg_int 2).
Proof.
  split; [intros msg; reflexivity | split; reflexivity].
Qed.

Lemma Typetag_not_NUL (args : list Arg.Argument) :
  existsb (Byte.eqb x00) (map Arg.Typetag args) = false.
Proof.
  induction args as [|a args IH]; [reflexivity|].
  simpl. rewrite IH. now destruct a as [i|f|[|]|s|b].
Qed.

Lemma existsb_repeat_NUL (n : nat) :
  existsb (Byte.eqb x00) (repeat x00 n) = negb (n =? 0)%nat.
Proof. now destruct n. Qed.

(** C4. Type-tag framing does not hold of [Typetags] when the number of
    arguments is a multiple of 4: the field holds a NUL exactly when that
    number is not a multiple of 4; the field of four integer arguments is
    the four tag bytes with no NUL after them, and the field of no argument
    is empty. *)
Theorem Typetags_unterminated :
  (forall msg : Message,
      existsb (Byte.eqb x00) (Typetags msg)
      = negb (len (Arguments msg) mod 4 =? 0)%Z)
  /\ Typetags msg_four_ints = ["i"; "i"; "i"; "i"]%byte
  /\ existsb (Byte.eqb x00) (Typetags msg_four_ints) = false
  /\ Typetags msg_no_args = []
  /\ Typetags (msg_int 1) = ["i"; x00; x00; x00]%byte.
Proof.
  split; [|repeat split].
  intros msg. unfold Typetags, Pad.
  rewrite existsb_app, Typetag_not_NUL, existsb_repeat_NUL, orb_false_l.
  unfold len. rewrite length_map.
  set (n := Z.of_nat (List.length (Arguments msg))).
  assert (Hn : (0 <= n mod 4 < 4)%Z) by (apply Z.mod_pos_bound; lia).
  destruct (Z.eqb_spec (n mod 4) 0) as [H0|H0].
  - now rewrite H0.
  - assert (Hk : ((4 - n mod 4) mod 4 = 4 - n mod 4)%Z)
      by (apply Z.mod_small; lia).
    rewrite Hk.
    destruct (Nat.eqb_spec (Z.to_nat (4 - n mod 4)) 0); [lia | reflexivity].
Qed.

Lemma padded_len_nonneg (n : Z) : (0 <= n -> 0 <= padded_len n)%Z.
Proof.
  intros Hn. unfold padded_len.
  pose proof (Z.mod_pos_bound (4 - n mod 4) 4). lia.
Qed.

Lemma ReadString_idx_nonneg (data : bytes) (s : string) (idx : Z) :
  ReadString data = Ret (s, idx) -> (0 <= idx)%Z.
Proof.
  unfold ReadString. destruct (IndexByte data x00); [|discriminate].
  intros H; injection H as _ <-. apply padded_len_nonneg. lia.
Qed.

(** Slicing twice from [idx] is slicing once from twice [idx]. *)
Lemma slice_from_twice (data : bytes) (idx : Z) :
  (0 <= idx)%Z ->
  (d <- slice_from data idx ;; slice_from d idx)
  = slice_from data (idx + idx).
Proof.
  intros Hidx. unfold slice_from, len.
  destruct (Z.ltb_spec idx 0) as [Hneg|_]; [lia|].
  destruct (Z.ltb_spec (idx + idx) 0) as [Hneg|_]; [lia|].
  cbn [orb].
  destruct (Z.ltb_spec (Z.of_nat (List.length data)) idx) as [Hl|Hl];
    cbn [bind].
  - destruct (Z.ltb_spec (Z.of_nat (List.length data)) (idx + idx));
      [reflexivity | lia].
  - rewrite length_skipn.
    destruct (Z.ltb_spec
                (Z.of_nat (List.length data - Z.to_nat idx)) idx) as [Ha|Ha];
      destruct (Z.ltb_spec (Z.of_nat (List.length data)) (idx + idx))
        as [Hb|Hb]; try reflexivity; try lia.
    rewrite skipn_skipn. f_equal. f_equal. lia.
Qed.

(** Where [ParseMessage] starts decoding: twice the length of the type-tag
    field after the start of that field. *)
Lemma ParseMessage_cursor (data : bytes) (sender : option Addr) :
  ParseMessage data sender
  = ('(address, idx) <- ReadString data ;;
     tagfield <- slice_from data idx ;;
     '(typetags, idx) <- ReadString tagfield ;;
     rest <- slice_from tagfield (idx + idx) ;;
     args <- ReadArguments (list_byte_of_string typetags) rest ;;
     Ret {| Address := address; Arguments := args; Sender := sender |}).
Proof.
  unfold ParseMessage.
  destruct (ReadString data) as [[address idx]| |]; try reflexivity.
  cbn [bind]. destruct (slice_from data idx) as [tagfield| |]; try reflexivity.
  cbn [bind].
  destruct (ReadString tagfield) as [[typetags idx']| |] eqn:Htags;
    try reflexivity.
  cbn [bind].
  rewrite <- (slice_from_twice tagfield idx'
                (ReadString_idx_nonneg _ _ _ Htags)).
  now destruct (slice_from tagfield idx').
Qed.

Lemma len_app {A : Type} (a b : list A) : (len (a ++ b) = len a + len b)%Z.
Proof. unfold len. rewrite length_app. lia. Qed.

Lemma len_Pad (b : bytes) : len (Pad b) = padded_len (len b).
Proof.
  unfold Pad, padded_len. rewrite len_app. f_equal.
  unfold len at 1. rewrite repeat_length.
  pose proof (Z.mod_pos_bound (4 - len b mod 4) 4). lia.
Qed.

Lemma IndexByte_app (a r : bytes) (c : byte) :
  IndexByte a c = None ->
  IndexByte (a ++ c :: r) c = Some (List.length a).
Proof.
  induction a as [|x a IH]; simpl.
  - intros _. destruct (Byte.eqb c c) eqn:E; [reflexivity|].
    now rewrite (Byte.byte_dec_lb eq_refl) in E.
  - destruct (Byte.eqb x c); [discriminate|].
    destruct (IndexByte a c); [discriminate|].
    intros _. now rewrite IH.
Qed.

Lemma IndexByte_Typetag (args : list Arg.Argument) :
  IndexByte (map Arg.Typetag args) x00 = None.
Proof.
  induction args as [|a args IH]; [reflexivity|].
  simpl. rewrite IH. now destruct a as [i|f|[|]|s|b].
Qed.

Lemma firstn_length_app {A : Type} (a r : list A) :
  firstn (List.length a) (a ++ r) = a.
Proof. induction a as [|x a IH]; simpl; [|rewrite IH]; reflexivity. Qed.

Lemma slice_from_app (a r : bytes) : slice_from (a ++ r) (len a) = Ret r.
Proof.
  unfold slice_from. rewrite len_app.
  destruct (Z.ltb_spec (len a) 0) as [H|_]; [unfold len in H; lia|].
  destruct (Z.ltb_spec (len a + len r) (len a)) as [H|_];
    [unfold len in H; lia|].
  cbn [orb]. unfold len. rewrite Nat2Z.id.
  now rewrite skipn_app, skipn_all, Nat.sub_diag.
Qed.

(** Reading back a field written by [OscString], when the string holds no
    NUL. *)
Lemma ReadString_OscString (s : string) (r : bytes) :
  IndexByte (list_byte_of_string s) x00 = None ->
  ReadString (OscString s ++ r) = Ret (s, len (OscString s)).
Proof.
  intros H. unfold ReadString, OscString.
  rewrite len_Pad, len_app. unfold Pad.
  rewrite <- !app_assoc. cbn [app].
  rewrite (IndexByte_app _ _ _ H), firstn_length_app.
  now rewrite string_of_list_byte_of_string.
Qed.

(** The type-tag field of a number of arguments that is not a multiple of 4
    is read back whole. *)
Lemma ReadString_Typetags (msg : Message) :
  (len (Arguments msg) mod 4 <> 0)%Z ->
  exists typetags : string,
    ReadString (Typetags msg) = Ret (typetags, len (Typetags msg))
    /\ (0 < len (Typetags msg))%Z.
Proof.
  intros Hmod. unfold Typetags. rewrite len_Pad.
  set (tags := map Arg.Typetag (Arguments msg)).
  assert (Hlen : len tags = len (Arguments msg))
    by (unfold len, tags; now rewrite length_map).
  rewrite Hlen. set (n := len (Arguments msg)) in *.
  assert (Hn : (0 <= n)%Z) by (unfold n, len; lia).
  assert (Hr : (0 <= n mod 4 < 4)%Z) by (apply Z.mod_pos_bound; lia).
  assert (Hk : ((4 - n mod 4) mod 4 = 4 - n mod 4)%Z)
    by (apply Z.mod_small; lia).
  assert (Hpad : padded_len (n + 1) = padded_len n).
  { unfold padded_len. rewrite Hk.
    assert (Hn1 : ((n + 1) mod 4 = (n mod 4 + 1) mod 4)%Z)
      by (rewrite Z.add_mod by lia; rewrite (Z.mod_small 1 4) by lia;
          reflexivity).
    rewrite Hn1.
    assert (Hcases : (n mod 4 = 1 \/ n mod 4 = 2 \/ n mod 4 = 3)%Z) by lia.
    destruct Hcases as [-> | [-> | ->]]; vm_compute (_ mod 4)%Z; lia. }
  exists (string_of_list_byte tags). split.
  - unfold ReadString, Pad. rewrite Hlen. fold n. rewrite Hk.
    destruct (Z.to_nat (4 - n mod 4)) as [|k] eqn:Ek; [lia|].
    cbn [repeat].
    rewrite (IndexByte_app _ _ _ (IndexByte_Typetag (Arguments msg))).
    fold tags. rewrite firstn_length_app.
    change (Z.of_nat (List.length tags)) with (len tags).
    now rewrite Hlen, Hpad.
  - unfold padded_len. lia.
Qed.

Lemma slice_from_beyond (data : bytes) :
  (0 < len data)%Z -> slice_from data (len data + len data) = Panic.
Proof.
  intros H. unfold slice_from.
  destruct (Z.ltb_spec (len data) (len data + len data)) as [_|Hc]; [|lia].
  now rewrite orb_true_r.
Qed.

(** C1. The round trip fails.  Whenever the address holds no NUL and the
    number of arguments is not a multiple of 4, parsing the serialization of
    the message faults: the buffer ends after the type-tag field, and the
    parser skips the length of that field twice.  So it is for a message
    with one integer argument, also when its payload is appended by hand. *)
Theorem roundtrip_faults :
  (forall (msg : Message) (sender : option Addr),
      IndexByte (list_byte_of_string (Address msg)) x00 = None ->
      (len (Arguments msg) mod 4 <> 0)%Z ->
      (b <- Bytes msg ;; ParseMessage b sender) = Panic)
  /\ (b <- Bytes (msg_int 1) ;; ParseMessage b None) = Panic
  /\ (exists b : bytes,
        Bytes (msg_int 1) = Ret b
        /\ ParseMessage (b ++ [x00; x00; x00; x01]%byte)%list None = Panic).
Proof.
  split; [|split; [reflexivity | eexists; split; reflexivity]].
  intros msg sender Haddr Hmod.
  change (Bytes msg)
    with (Ret (OscString (Address msg) ++ Typetags msg)%list : outcome bytes).
  cbn [bind]. rewrite ParseMessage_cursor.
  rewrite (ReadString_OscString _ _ Haddr). cbn [bind].
  rewrite slice_from_app. cbn [bind].
  destruct (ReadString_Typetags msg Hmod) as [typetags [Htags Hpos]].
  rewrite Htags. cbn [bind].
  now rewrite (slice_from_beyond _ Hpos).
Qed.

(** The round trip of a message with one integer argument. *)
Lemma roundtrip_faults_witness :
  IndexByte (list_byte_of_string (Address (msg_int 1))) x00 = None
  /\ (len (Arguments (msg_int 1)) mod 4 <> 0)%Z
  /\ (b <- Bytes (msg_int 1) ;; ParseMessage b None) = Panic.
Proof.
  assert (Ha : IndexByte (list_byte_of_string (Address (msg_int 1))) x00
               = None) by reflexivity.
  assert (Hm : (len (Arguments (msg_int 1)) mod 4 <> 0)%Z)
    by (vm_compute; discriminate).
  split; [exact Ha|]. split; [exact Hm|].
  exact (proj1 roundtrip_faults (msg_int 1) None Ha Hm).
Defined.

(** C3. Argument decoding does not start at the byte after the padded
    type-tag field: [ParseMessage] hands to [ReadArguments] what lies twice
    the length of the type-tag field after the start of that field.  On the
    buffer holding 5 then 7 after the tag string [i] it returns 7, while
    [ReadArguments] applied right after the type-tag field (offset 8)
    returns 5. *)
Theorem ParseMessage_skips_twice :
  (forall (data : bytes) (sender : option Addr),
      ParseMessage data sender
      = ('(address, idx) <- ReadString data ;;
         tagfield <- slice_from data idx ;;
         '(typetags, idx) <- ReadString tagfield ;;
         rest <- slice_from tagfield (idx + idx) ;;
         args <- ReadArguments (list_byte_of_string typetags) rest ;;
         Ret {| Address := address; Arguments := args; Sender := sender |}))
  /\ ParseMessage buf_five_seven None
     = Ret {| Address := "/a"; Arguments := [Arg.Int 7]; Sender := None |}
  /\ (rest <- slice_from buf_five_seven 8 ;;
      ReadArguments ["i"%byte] rest) = Ret [Arg.Int 5].
Proof.
  split; [exact ParseMessage_cursor | split; reflexivity].
Qed.

(** C9. Blob truncation is not reported as an error: on a declared length
    of 8 with 2 bytes left [ParseArgument] faults, and after a complete
    length prefix it never returns an error; a buffer shorter than the
    prefix gives the error of the reader, [io.ErrUnexpectedEOF] or
    [io.EOF]. *)
Theorem ParseArgument_blob_overrun :
  ParseArgument TypetagBlob buf_short_blob = Panic
  /\ (forall (b0 b1 b2 b3 : byte) (rest : bytes),
        is_raise (ParseArgument TypetagBlob (b0 :: b1 :: b2 :: b3 :: rest))
        = false)
  /\ ParseArgument TypetagBlob [x00; x00]%byte = Raise io_ErrUnexpectedEOF
  /\ ParseArgument TypetagBlob [] = Raise io_EOF.
Proof.
  split; [reflexivity|]. split; [|split; reflexivity].
  intros b0 b1 b2 b3 rest.
  assert (Hs : slice_from (b0 :: b1 :: b2 :: b3 :: rest) 4 = Ret rest).
  { unfold slice_from, len.
    replace (Z.of_nat (List.length (b0 :: b1 :: b2 :: b3 :: rest)) <? 4)%Z
      with false by (symmetry; apply Z.ltb_ge; simpl List.length; lia).
    reflexivity. }
  unfold ParseArgument; simpl bind. rewrite Hs; simpl.
  unfold ReadBlob, slice_to.
  destruct (_ || _); reflexivity.
Qed.

(** ** Properties of the address matcher *)

Local Open Scope string_scope.

Lemma strings_Split_length (s : string) (sep : ascii) :
  (1 <= List.length (strings_Split s sep))%nat.
Proof.
  induction s as [|c s IH]; simpl; [lia|].
  destruct (Ascii.eqb c sep); simpl; [lia|].
  destruct (strings_Split s sep); simpl in *; lia.
Qed.

(** The loop answers false as soon as one of the segments it visits, or the
    segment of [p2] at the same place, is empty. *)
Lemma parts_loop_false (ps p2 : list string) :
  forall (i j : nat) (p : string),
    nth_error ps j = Some p ->
    String.length p = 0%nat
    \/ String.length (nth (i + j + 1) p2 "") = 0%nat ->
    parts_loop i ps p2 = false.
Proof.
  induction ps as [|q rest IH]; intros i j p Hnth Hempty.
  - destruct j; discriminate.
  - simpl. destruct j as [|j].
    + injection Hnth as ->.
      replace (i + 0 + 1)%nat with (i + 1)%nat in Hempty by lia.
      destruct Hempty as [-> | ->]; simpl; [reflexivity|].
      now rewrite orb_true_r.
    + destruct (_ || _); [reflexivity|].
      apply (IH (S i) j p Hnth).
      now replace (S i + j + 1)%nat with (i + S j + 1)%nat by lia.
Qed.

Lemma nth_error_tl {A : Type} (l : list A) (i : nat) :
  nth_error (tl l) i = nth_error l (S i).
Proof. destruct l; [now destruct i | reflexivity]. Qed.

Lemma VerifyParts_false (m1 m2 : string) :
  m1 <> m2 ->
  List.length (parts m1) <> List.length (parts m2)
  \/ has_empty_part m1 \/ has_empty_part m2 ->
  VerifyParts m1 m2 = false.
Proof.
  intros Hneq H. unfold VerifyParts.
  apply String.eqb_neq in Hneq. rewrite Hneq. cbv zeta.
  fold (parts m1) (parts m2).
  destruct (Nat.eqb_spec (List.length (parts m1)) (List.length (parts m2)))
    as [Hlen|Hlen]; [|reflexivity].
  destruct H as [H | H]; [contradiction|].
  pose proof (strings_Split_length m1 MessageChar) as Hpos.
  fold (parts m1) in Hpos.
  destruct (Nat.eqb_spec (List.length (parts m1)) 0) as [H0|_]; [lia|].
  simpl.
  destruct H as [[i [Hi Hnth]] | [i [Hi Hnth]]].
  - destruct i as [|j]; [lia|].
    apply (parts_loop_false _ _ 0 j "").
    + now rewrite nth_error_tl.
    + now left.
  - destruct i as [|j]; [lia|].
    assert (Hj : (S j < List.length (parts m1))%nat).
    { rewrite Hlen. apply nth_error_Some. now rewrite Hnth. }
    destruct (nth_error (tl (parts m1)) j) as [p|] eqn:Hp.
    + apply (parts_loop_false _ _ 0 j p Hp). right.
      replace (0 + j + 1)%nat with (S j) by lia.
      now rewrite (nth_error_nth _ _ _ Hnth).
    + rewrite nth_error_tl in Hp. apply nth_error_None in Hp. lia.
Qed.

(** C6. Part-count pre-check: when the address and the pattern are not the
    same string, and they split on the slash into different numbers of
    segments or one of them has an empty segment after the first, [Match]
    answers false with no error; so do the two examples. *)
Theorem Match_part_count_reject :
  (forall (msg : Message) (address : string),
      address <> Address msg ->
      List.length (parts address) <> List.length (parts (Address msg))
      \/ has_empty_part address \/ has_empty_part (Address msg) ->
      Match msg address = Ret false)
  /\ Match {| Address := "/foo/bar"; Arguments := []; Sender := None |}
       "/foo/bar/x" = Ret false
  /\ Match {| Address := "/foo//bar"; Arguments := []; Sender := None |}
       "/foo/bar" = Ret false.
Proof.
  split; [|split; reflexivity].
  intros msg address Hneq H. unfold Match.
  now rewrite (VerifyParts_false _ _ Hneq H).
Qed.

(** The pre-check at work on a pattern with an empty segment. *)
Lemma Match_part_count_reject_witness :
  "/foo/bar" <> "/foo//bar"
  /\ has_empty_part "/foo//bar"
  /\ Match {| Address := "/foo//bar"; Arguments := []; Sender := None |}
       "/foo/bar" = Ret false.
Proof.
  assert (Hneq : "/foo/bar" <> "/foo//bar") by discriminate.
  assert (Hempty : has_empty_part "/foo//bar")
    by (exists 2%nat; split; [lia | reflexivity]).
  split; [exact Hneq|]. split; [exact Hempty|].
  exact (proj1 Match_part_count_reject
           {| Address := "/foo//bar"; Arguments := []; Sender := None |}
           "/foo/bar" Hneq (or_intror (or_intror Hempty))).
Defined.

Lemma VerifyParts_refl (p : string) : VerifyParts p p = true.
Proof. unfold VerifyParts. now rewrite String.eqb_refl. Qed.

Ltac by_ascii c H :=
  destruct c as [[|] [|] [|] [|] [|] [|] [|] [|]];
  vm_compute in H; try discriminate H; reflexivity.

(** A plain character is none of the eight characters [GetRegex] rewrites. *)
Lemma is_plain_not_rewritten (c : ascii) :
  is_plain c = true ->
  forallb (fun old => negb (Ascii.eqb c old))
    ["."; "("; ")"; "*"; "{"; ","; "}"; "?"]%char = true.
Proof. intros H. by_ascii c H. Qed.

Lemma strings_Replace_other (s : string) (old : ascii) (new : string) :
  (forall c : ascii, is_plain c = true -> Ascii.eqb c old = false) ->
  all_plain s = true ->
  strings_Replace s old new = s.
Proof.
  intros Hold. induction s as [|c s IH]; simpl; [reflexivity|].
  intros H. apply andb_true_iff in H as [Hc Hs].
  now rewrite (Hold c Hc), (IH Hs).
Qed.

(** The parser reads a plain character as a literal. *)
Lemma parse_plain_char (c : ascii) (t : string)
  (alts seq : list regexp.Regexp) (stack : list regexp.frame) (lr : bool)
  (b : nat) :
  is_plain c = true ->
  regexp.parse (String c t) alts seq stack lr b
  = regexp.parse t alts (regexp.Literal c :: seq) stack false b.
Proof. intros H. by_ascii c H. Qed.

Lemma parse_plain (p : string) :
  all_plain p = true ->
  forall (seq : list regexp.Regexp) (lr : bool) (b : nat),
    regexp.parse (p ++ "$") [] seq [] lr b
    = Ret (fold_left (fun acc r => regexp.Concat r acc) seq
             (literals p (regexp.Concat regexp.EndText regexp.EmptyMatch))).
Proof.
  induction p as [|c p IH]; intros H seq lr b.
  - reflexivity.
  - simpl in H. apply andb_true_iff in H as [Hc Hp].
    change (String c p ++ "$") with (String c (p ++ "$")).
    rewrite (parse_plain_char _ _ _ _ _ _ _ Hc), (IH Hp). reflexivity.
Qed.

(** [GetRegex] on a pattern of plain characters: the characters as
    literals, between the two anchors. *)
Lemma GetRegex_plain (p : string) :
  all_plain p = true ->
  GetRegex p
  = Ret (regexp.Concat regexp.BeginText
           (literals p (regexp.Concat regexp.EndText regexp.EmptyMatch))).
Proof.
  intros H. unfold GetRegex.
  assert (Hnot : forall old : ascii,
             In old ["."; "("; ")"; "*"; "{"; ","; "}"; "?"]%char ->
             forall c : ascii, is_plain c = true -> Ascii.eqb c old = false).
  { intros old Hin c Hc. apply is_plain_not_rewritten in Hc.
    rewrite forallb_forall in Hc. apply negb_true_iff. now apply Hc. }
  cbv zeta.
  do 8 (rewrite (strings_Replace_other p);
        [| apply Hnot; simpl; tauto | exact H]).
  unfold regexp.Compile.
  change ("^" ++ p ++ "$") with (String "^" (p ++ "$")).
  change (regexp.parse (String "^" (p ++ "$")) [] [] [] false
            regexp.structure_budget)
    with (regexp.parse (p ++ "$") [] [regexp.BeginText] [] false
            regexp.structure_budget).
  now rewrite (parse_plain p H).
Qed.

(** A run of literals matches itself at the head of the text. *)
Lemma matches_literals (p : string) (tail : regexp.Regexp) :
  forall (bot : bool) (s : string) (k : bool -> string -> bool),
    regexp.matches (literals p tail) bot (p ++ s) k
    = regexp.matches tail
        (match p with EmptyString => bot | String _ _ => false end) s k.
Proof.
  induction p as [|c p IH]; intros bot s k; [reflexivity|].
  simpl. rewrite Ascii.eqb_refl, IH. simpl. now destruct p.
Qed.

Lemma append_empty_r (p : string) : p ++ "" = p.
Proof. induction p as [|c p IH]; simpl; [|rewrite IH]; reflexivity. Qed.

Lemma search_head (fuel : nat) (re : regexp.Regexp) (bot : bool)
  (s : string) :
  regexp.matches re bot s (fun _ _ => true) = true ->
  regexp.search fuel re bot s = true.
Proof. intros H. destruct fuel; simpl; now rewrite H. Qed.

Lemma MatchString_plain (p : string) :
  regexp.MatchString
    (regexp.Concat regexp.BeginText
       (literals p (regexp.Concat regexp.EndText regexp.EmptyMatch))) p
  = true.
Proof.
  unfold regexp.MatchString. apply search_head.
  rewrite <- (append_empty_r p) at 2.
  cbn [regexp.matches andb]. now rewrite matches_literals.
Qed.

(** The matching examples of the specification, run on the model. *)
Example Match_examples :
  let pattern p := {| Address := p; Arguments := []; Sender := None |} in
  Match (pattern "/foo/bar") "/foo/bar" = Ret true
  /\ Match (pattern "/foo/*") "/foo/bar" = Ret true
  /\ Match (pattern "/foo/ba?") "/foo/bar" = Ret true
  /\ Match (pattern "/foo/{bar,baz}") "/foo/baz" = Ret true
  /\ Match (pattern "/foo/{bar,baz}") "/foo/bax" = Ret false
  /\ Match (pattern "/foo/b.r") "/foo/bar" = Ret false.
Proof. repeat split. Qed.

(** Decoding examples: a blob of three bytes takes a field of eight, and a
    string of two characters a field of four. *)
Example ParseArgument_examples :
  ParseArgument TypetagBlob [x00; x00; x00; x03; x01; x02; x03; x00]%byte
  = Ret (Arg.Blob [x01; x02; x03]%byte, 8%Z)
  /\ ParseArgument TypetagString ["h"; "i"; x00; x00; "x"]%byte
     = Ret (Arg.String "hi", 4%Z)
  /\ ParseArgument TypetagInt [xff; xff; xff; xfe]%byte
     = Ret (Arg.Int (-2), 4%Z)
  /\ ParseArgument "x"%byte [] = Raise ErrInvalidTypeTag.
Proof. repeat split. Qed.

(** ** Further properties of the arguments *)

Lemma f32_eqb_sym (x y : Z) : f32_eqb x y = f32_eqb y x.
Proof.
  unfold f32_eqb. rewrite (Z.eqb_sym x y).
  destruct (f32_is_nan x), (f32_is_nan y), (f32_is_zero x), (f32_is_zero y);
    reflexivity.
Qed.

Lemma bytes_Equal_sym (a b : bytes) : bytes_Equal a b = bytes_Equal b a.
Proof.
  apply eq_true_iff_eq. rewrite !bytes_Equal_spec. split; congruence.
Qed.

Lemma String_eqb_sym (s t : string) : String.eqb s t = String.eqb t s.
Proof.
  apply eq_true_iff_eq. rewrite !String.eqb_eq. split; congruence.
Qed.

Lemma Bool_eqb_sym (x y : bool) : Bool.eqb x y = Bool.eqb y x.
Proof. now destruct x, y. Qed.

(** X1. [Equal] does not depend on which of the two arguments is the receiver. *)
Theorem Equal_symmetric :
  forall a b : Arg.Argument, Arg.Equal a b = Arg.Equal b a.
Proof.
  intros a b.
  destruct a as [i|f|[|]|s|x]; destruct b as [j|g|[|]|t|y]; simpl;
    try reflexivity.
  - now rewrite Z.eqb_sym.
  - now rewrite f32_eqb_sym.
  - now rewrite String_eqb_sym.
  - rewrite (Z.eqb_sym (len x) (len y)), bytes_Equal_sym. reflexivity.
Qed.

Lemma bytes_Equal_refl (a : bytes) : bytes_Equal a a = true.
Proof. now apply bytes_Equal_spec. Qed.

Lemma f32_eqb_refl (f : Z) : f32_eqb f f = negb (f32_is_nan f).
Proof.
  unfold f32_eqb. rewrite Z.eqb_refl, orb_true_r, andb_true_r.
  apply andb_diag.
Qed.

(** X2. An argument equals itself, unless it is a float holding a NaN. *)
Theorem Equal_reflexive_but_NaN :
  forall a : Arg.Argument, Arg.Equal a a = Ret (negb (is_nan_arg a)).
Proof.
  intros a. destruct a as [i|f|[|]|s|x].
  - simpl. now rewrite Z.eqb_refl.
  - change (Arg.Equal (Arg.Float f) (Arg.Float f)) with (Ret (f32_eqb f f)).
    now rewrite f32_eqb_refl.
  - reflexivity.
  - reflexivity.
  - simpl. now rewrite String.eqb_refl.
  - simpl. now rewrite Z.eqb_refl, bytes_Equal_refl.
Qed.

Lemma f32_eqb_trans (x y z : Z) :
  f32_eqb x y = true -> f32_eqb y z = true -> f32_eqb x z = true.
Proof.
  unfold f32_eqb.
  destruct (Z.eqb_spec x y) as [->|_]; [intros _ H; exact H|].
  destruct (Z.eqb_spec y z) as [->|_].
  - intros H _.
    destruct (f32_is_nan x), (f32_is_nan z), (f32_is_zero x),
      (f32_is_zero z), (x =? z)%Z; simpl in *; try discriminate; reflexivity.
  - destruct (f32_is_nan x), (f32_is_nan y), (f32_is_nan z),
      (f32_is_zero x), (f32_is_zero y), (f32_is_zero z), (x =? z)%Z;
      simpl; intros; try discriminate; reflexivity.
Qed.

(** X3. The positive answers of [Equal] chain. *)
Theorem Equal_transitive :
  forall a b c : Arg.Argument,
    Arg.Equal a b = Ret true ->
    Arg.Equal b c = Ret true ->
    Arg.Equal a c = Ret true.
Proof.
  intros a b c Hab Hbc.
  destruct a as [i|f|x|s|x]; destruct b as [j|g|y|t|y];
    try (simpl in Hab; discriminate Hab);
    try (destruct y; simpl in Hab; discriminate Hab);
    destruct c as [k|h|z|u|z];
    try (simpl in Hbc; discriminate Hbc);
    try (destruct z; simpl in Hbc; discriminate Hbc);
    try (destruct y; simpl in Hbc; discriminate Hbc).
  - simpl in *. injection Hab as Hab. injection Hbc as Hbc.
    apply Z.eqb_eq in Hab, Hbc. subst. now rewrite Z.eqb_refl.
  - change (Ret (f32_eqb f g) = Ret true) in Hab.
    change (Ret (f32_eqb g h) = Ret true) in Hbc.
    change (Ret (f32_eqb f h) = Ret true).
    injection Hab as Hab. injection Hbc as Hbc.
    now rewrite (f32_eqb_trans f g h).
  - destruct x, y, z; simpl in *; congruence.
  - simpl in *. injection Hab as Hab. injection Hbc as Hbc.
    apply String.eqb_eq in Hab, Hbc. subst. now rewrite String.eqb_refl.
  - simpl in *.
    destruct (len x =? len y)%Z; [|discriminate Hab].
    destruct (len y =? len z)%Z; [|discriminate Hbc].
    simpl in *. injection Hab as Hab. injection Hbc as Hbc.
    apply bytes_Equal_spec in Hab, Hbc. subst.
    now rewrite Z.eqb_refl, bytes_Equal_refl.
Qed.

(** Three equal integers. *)
Lemma Equal_transitive_witness :
  Arg.Equal (Arg.Int 7) (Arg.Int 7) = Ret true.
Proof.
  exact (Equal_transitive (Arg.Int 7) (Arg.Int 7) (Arg.Int 7)
           eq_refl eq_refl).
Defined.

(** X4. Two arguments that [Equal] finds equal bear the same tag and answer
    alike to every typed reader; the two floats read may be the two
    zeros. *)
Theorem Equal_true_same_reads :
  forall a b : Arg.Argument,
    Arg.Equal a b = Ret true ->
    Arg.Typetag a = Arg.Typetag b
    /\ Arg.ReadInt32 a = Arg.ReadInt32 b
    /\ Arg.ReadBool a = Arg.ReadBool b
    /\ Arg.ReadString a = Arg.ReadString b
    /\ Arg.ReadBlob a = Arg.ReadBlob b
    /\ match Arg.ReadFloat32 a, Arg.ReadFloat32 b with
       | Ret f, Ret g => f32_eqb f g = true
       | Raise e, Raise e' => e = e'
       | _, _ => False
       end.
Proof.
  intros a b H.
  destruct a as [i|f|x|s|x]; destruct b as [j|g|y|t|y];
    try (simpl in H; discriminate H);
    try (destruct y; simpl in H; discriminate H).
  - simpl in H. injection H as H. apply Z.eqb_eq in H. subst.
    repeat split.
  - change (Ret (f32_eqb f g) = Ret true) in H. injection H as H.
    repeat split. exact H.
  - destruct x, y; simpl in H; try discriminate H; repeat split.
  - simpl in H. injection H as H. apply String.eqb_eq in H. subst.
    repeat split.
  - simpl in H. destruct (len x =? len y)%Z; [|discriminate H].
    simpl in H. injection H as H. apply bytes_Equal_spec in H. subst.
    repeat split.
Qed.

(** The two zeros, which [Equal] finds equal. *)
Lemma Equal_true_same_reads_witness :
  Arg.Equal (Arg.Float 0) (Arg.Float (2 ^ 31)) = Ret true
  /\ Arg.Typetag (Arg.Float 0) = Arg.Typetag (Arg.Float (2 ^ 31)).
Proof.
  assert (H : Arg.Equal (Arg.Float 0) (Arg.Float (2 ^ 31)) = Ret true)
    by (vm_compute; reflexivity).
  split; [exact H|].
  exact (proj1 (Equal_true_same_reads _ _ H)).
Defined.

(** ** Further properties of [ParseArgument] *)

Local Open Scope Z_scope.

Lemma byte_val_range (b : byte) : 0 <= byte_val b < 256.
Proof.
  unfold byte_val. pose proof (Byte.to_N_bounded b). lia.
Qed.

(** Below [2 ^ n] the bits of [b] do not meet those of [a] shifted by
    [n]. *)
Lemma lor_shiftl_add (a b n : Z) :
  0 <= n -> 0 <= b < 2 ^ n -> Z.lor (Z.shiftl a n) b = a * 2 ^ n + b.
Proof.
  intros Hn Hb.
  assert (Hland : Z.land (Z.shiftl a n) b = 0).
  { apply Z.bits_inj'. intros i Hi.
    rewrite Z.land_spec, Z.bits_0.
    destruct (Z.lt_ge_cases i n) as [Hlt|Hge].
    - now rewrite Z.shiftl_spec_low.
    - rewrite andb_false_iff. right.
      destruct (Z.eq_dec b 0) as [->|Hb0]; [apply Z.bits_0|].
      apply Z.bits_above_log2; [lia|].
      assert (Z.log2 b < n) by (apply Z.log2_lt_pow2; lia). lia. }
  rewrite <- Z.lxor_lor by exact Hland.
  rewrite <- Z.add_nocarry_lxor by exact Hland.
  now rewrite Z.shiftl_mul_pow2.
Qed.

Lemma be_uint32_value (b0 b1 b2 b3 : byte) :
  be_uint32 b0 b1 b2 b3 = be_value b0 b1 b2 b3.
Proof.
  unfold be_uint32, be_value.
  pose proof (byte_val_range b0). pose proof (byte_val_range b1).
  pose proof (byte_val_range b2). pose proof (byte_val_range b3).
  rewrite (lor_shiftl_add (byte_val b2) (byte_val b3) 8) by lia.
  rewrite (lor_shiftl_add (byte_val b1) _ 16) by lia.
  rewrite (lor_shiftl_add (byte_val b0) _ 24) by lia.
  lia.
Qed.

Lemma be_value_range (b0 b1 b2 b3 : byte) :
  0 <= be_value b0 b1 b2 b3 < 2 ^ 32.
Proof.
  unfold be_value.
  pose proof (byte_val_range b0). pose proof (byte_val_range b1).
  pose proof (byte_val_range b2). pose proof (byte_val_range b3).
  lia.
Qed.

(** X6. On four bytes or more, tag [i] reads the first four as a big-endian
    two's-complement integer, within the range of [int32], and tag [f] reads
    them as a 32-bit pattern; what follows the four bytes plays no part. *)
Theorem ParseArgument_big_endian :
  forall (b0 b1 b2 b3 : byte) (rest : bytes),
    let u := be_value b0 b1 b2 b3 in
    let v := if u <? 2 ^ 31 then u else u - 2 ^ 32 in
    ParseArgument TypetagInt (b0 :: b1 :: b2 :: b3 :: rest)
    = Ret (Arg.Int v, 4)
    /\ - 2 ^ 31 <= v < 2 ^ 31
    /\ v mod 2 ^ 32 = u
    /\ ParseArgument TypetagFloat (b0 :: b1 :: b2 :: b3 :: rest)
       = Ret (Arg.Float u, 4)
    /\ 0 <= u < 2 ^ 32.
Proof.
  intros b0 b1 b2 b3 rest u v.
  pose proof (be_value_range b0 b1 b2 b3) as Hu. fold u in Hu.
  assert (Hi : ParseArgument TypetagInt (b0 :: b1 :: b2 :: b3 :: rest)
               = Ret (Arg.Int v, 4)).
  { unfold ParseArgument. cbn [Byte.eqb binary_Read32].
    change (Byte.eqb TypetagInt TypetagInt) with true. cbv iota.
    unfold int32_of_uint32. rewrite be_uint32_value. reflexivity. }
  assert (Hf : ParseArgument TypetagFloat (b0 :: b1 :: b2 :: b3 :: rest)
               = Ret (Arg.Float u, 4)).
  { unfold ParseArgument. cbn [binary_Read32].
    change (Byte.eqb TypetagFloat TypetagInt) with false.
    change (Byte.eqb TypetagFloat TypetagFloat) with true. cbv iota.
    rewrite be_uint32_value. reflexivity. }
  split; [exact Hi|]. unfold v.
  destruct (Z.ltb_spec u (2 ^ 31)) as [Hlt|Hge].
  - split; [lia|]. split; [apply Z.mod_small; lia|]. split; [exact Hf|lia].
  - split; [lia|]. split.
    + replace (u - 2 ^ 32) with (u + (-1) * 2 ^ 32) by lia.
      rewrite Z.mod_add by lia. apply Z.mod_small; lia.
    + split; [exact Hf|lia].
Qed.

(** The helpers that return no error value raise none. *)
Lemma ReadString_no_error (data : bytes) (e : error) :
  ReadString data <> Raise e.
Proof. unfold ReadString. destruct (IndexByte data x00); discriminate. Qed.

Lemma slice_from_no_error (data : bytes) (idx : Z) (e : error) :
  slice_from data idx <> Raise e.
Proof. unfold slice_from. destruct (_ || _); discriminate. Qed.

Lemma ReadBlob_no_error (length : Z) (data : bytes) (e : error) :
  ReadBlob length data <> Raise e.
Proof.
  unfold ReadBlob, slice_to. destruct (_ || _); discriminate.
Qed.

Lemma Byte_eqb_eq (a b : byte) : Byte.eqb a b = true -> a = b.
Proof. apply Byte.byte_dec_bl. Qed.

(** X7. The argument that [ParseArgument] returns bears the tag it was asked
    for. *)
Theorem ParseArgument_Typetag :
  forall (tt : byte) (data : bytes) (a : Arg.Argument) (n : Z),
    ParseArgument tt data = Ret (a, n) -> Arg.Typetag a = tt.
Proof.
  intros tt data a n. unfold ParseArgument.
  destruct (Byte.eqb tt TypetagInt) eqn:Ei.
  { intros H; injection H as <- _. symmetry. now apply Byte_eqb_eq. }
  destruct (Byte.eqb tt TypetagFloat) eqn:Ef.
  { intros H; injection H as <- _. symmetry. now apply Byte_eqb_eq. }
  destruct (Byte.eqb tt TypetagTrue) eqn:Et.
  { intros H; injection H as <- _. symmetry. now apply Byte_eqb_eq. }
  destruct (Byte.eqb tt TypetagFalse) eqn:Efa.
  { intros H; injection H as <- _. symmetry. now apply Byte_eqb_eq. }
  destruct (Byte.eqb tt TypetagString) eqn:Es.
  { destruct (ReadString data) as [[s idx]| |]; try discriminate.
    intros H; injection H as <- _. symmetry. now apply Byte_eqb_eq. }
  destruct (Byte.eqb tt TypetagBlob) eqn:Eb; [|discriminate].
  destruct (binary_Read32 data) as [u| |]; try discriminate. cbn [bind].
  destruct (slice_from data 4) as [r| |]; try discriminate. cbn [bind].
  destruct (ReadBlob (int32_of_uint32 u) r) as [[b bl]| |]; try discriminate.
  intros H; injection H as <- _. symmetry. now apply Byte_eqb_eq.
Qed.

(** A string field read under tag [s]. *)
Lemma ParseArgument_Typetag_witness :
  ParseArgument TypetagString ["h"; "i"; x00; x00]%byte
  = Ret (Arg.String "hi", 4)
  /\ Arg.Typetag (Arg.String "hi") = TypetagString.
Proof.
  assert (H : ParseArgument TypetagString ["h"; "i"; x00; x00]%byte
              = Ret (Arg.String "hi", 4)) by reflexivity.
  split; [exact H|].
  exact (ParseArgument_Typetag _ _ _ _ H).
Defined.

(** X8. [ParseArgument] answers [ErrInvalidTypeTag] exactly on the tags that are
    none of the six, whatever the data. *)
Theorem ParseArgument_invalid_tag :
  forall (tt : byte) (data : bytes),
    ParseArgument tt data = Raise ErrInvalidTypeTag <-> known_tag tt = false.
Proof.
  intros tt data. unfold known_tag, ParseArgument. cbn [existsb].
  destruct (Byte.eqb tt TypetagInt); [split; discriminate|].
  destruct (Byte.eqb tt TypetagFloat); [split; discriminate|].
  destruct (Byte.eqb tt TypetagTrue); [split; discriminate|].
  destruct (Byte.eqb tt TypetagFalse); [split; discriminate|].
  destruct (Byte.eqb tt TypetagString).
  { cbn [orb]. split; [|discriminate].
    destruct (ReadString data) as [[s idx]|e|] eqn:E; cbn [bind];
      try discriminate.
    now elim (ReadString_no_error data e). }
  destruct (Byte.eqb tt TypetagBlob); [|split; reflexivity].
  cbn [orb]. split; [|discriminate].
  destruct data as [|b0 [|b1 [|b2 [|b3 rest]]]]; try discriminate.
  cbn [binary_Read32 bind].
  destruct (slice_from _ 4) as [r|e|] eqn:Er; cbn [bind]; try discriminate.
  - destruct (ReadBlob _ r) as [[b bl]|e|] eqn:Eb; cbn [bind];
      try discriminate.
    now elim (ReadBlob_no_error _ _ _ Eb).
  - now elim (slice_from_no_error _ _ _ Er).
Qed.

(** X9. The only errors of [ParseArgument]: [ErrInvalidTypeTag] on an unknown
    tag, and under tag [b] the error of the reader on a buffer of fewer than
    4 bytes, [io.EOF] when it is empty and [io.ErrUnexpectedEOF]
    otherwise. *)
Theorem ParseArgument_errors :
  (forall (tt : byte) (data : bytes) (e : error),
      ParseArgument tt data = Raise e ->
      (e = ErrInvalidTypeTag /\ known_tag tt = false)
      \/ (tt = TypetagBlob /\ len data < 4
          /\ e = match data with [] => io_EOF | _ => io_ErrUnexpectedEOF end))
  /\ (forall data : bytes,
        len data < 4 ->
        ParseArgument TypetagBlob data
        = Raise match data with [] => io_EOF | _ => io_ErrUnexpectedEOF end).
Proof.
  split.
  - intros tt data e. unfold ParseArgument.
    destruct (Byte.eqb tt TypetagInt) eqn:Ei; [discriminate|].
    destruct (Byte.eqb tt TypetagFloat) eqn:Ef; [discriminate|].
    destruct (Byte.eqb tt TypetagTrue) eqn:Et; [discriminate|].
    destruct (Byte.eqb tt TypetagFalse) eqn:Efa; [discriminate|].
    destruct (Byte.eqb tt TypetagString) eqn:Es.
    { destruct (ReadString data) as [[s idx]|e'|] eqn:E; cbn [bind];
        try discriminate.
      now elim (ReadString_no_error data e'). }
    destruct (Byte.eqb tt TypetagBlob) eqn:Eb.
    + apply Byte_eqb_eq in Eb. intros H. right. split; [exact Eb|].
      destruct data as [|b0 [|b1 [|b2 [|b3 rest]]]];
        try (cbn in H; injection H as <-; split;
             [vm_compute; reflexivity | reflexivity]).
      cbn [binary_Read32 bind] in H.
      destruct (slice_from _ 4) as [r|e'|] eqn:Er; cbn [bind] in H;
        try discriminate.
      * destruct (ReadBlob _ r) as [[b bl]|e'|] eqn:Erb; cbn [bind] in H;
          try discriminate.
        now elim (ReadBlob_no_error _ _ _ Erb).
      * now elim (slice_from_no_error _ _ _ Er).
    + intros H; injection H as <-. left. split; [reflexivity|].
      unfold known_tag. cbn [existsb].
      now rewrite Ei, Ef, Et, Efa, Es, Eb.
  - intros data Hlen. unfold len in Hlen.
    destruct data as [|b0 [|b1 [|b2 [|b3 rest]]]]; simpl in Hlen;
      try lia; reflexivity.
Qed.

(** A blob field cut inside its length prefix. *)
Lemma ParseArgument_errors_witness :
  len [x00; x00]%byte < 4
  /\ ParseArgument TypetagBlob [x00; x00]%byte = Raise io_ErrUnexpectedEOF.
Proof.
  assert (H : len [x00; x00]%byte < 4) by (vm_compute; reflexivity).
  split; [exact H|].
  exact (proj2 ParseArgument_errors [x00; x00]%byte H).
Defined.

(** ** Further properties of the address matcher *)

Local Open Scope string_scope.

Lemma length_zero_empty (s : string) : String.length s = 0%nat <-> s = "".
Proof. destruct s; simpl; split; intros H; try reflexivity; discriminate. Qed.

(** The loop answers true only when no segment it visits is empty, nor the
    segment of [p2] at the same place. *)
Lemma parts_loop_true (ps p2 : list string) :
  forall i : nat,
    parts_loop i ps p2 = true ->
    forall (j : nat) (p : string),
      nth_error ps j = Some p ->
      p <> "" /\ nth (i + j + 1) p2 "" <> "".
Proof.
  induction ps as [|q rest IH]; intros i H j p Hnth.
  - destruct j; discriminate.
  - simpl in H.
    destruct (Nat.eqb_spec (String.length q) 0) as [|Hq];
      [discriminate|].
    destruct (Nat.eqb_spec (String.length (nth (i + 1) p2 "")) 0) as [|Hq2];
      [discriminate|].
    simpl in H. destruct j as [|j].
    + injection Hnth as <-.
      replace (i + 0 + 1)%nat with (i + 1)%nat by lia.
      split; intros E; rewrite E in *; simpl in *; lia.
    + replace (i + S j + 1)%nat with (S i + j + 1)%nat by lia.
      now apply (IH (S i) H j p).
Qed.

Lemma VerifyParts_spec (m1 m2 : string) :
  VerifyParts m1 m2 = true
  <-> m1 = m2
      \/ (List.length (parts m1) = List.length (parts m2)
          /\ ~ has_empty_part m1 /\ ~ has_empty_part m2).
Proof.
  split.
  - intros H. destruct (String.eqb_spec m1 m2) as [Heq|Hneq]; [now left|].
    right. unfold VerifyParts in H.
    apply String.eqb_neq in Hneq. rewrite Hneq in H. cbv zeta in H.
    fold (parts m1) (parts m2) in H.
    destruct (Nat.eqb_spec (List.length (parts m1)) (List.length (parts m2)))
      as [Hlen|]; [|discriminate].
    destruct (Nat.eqb_spec (List.length (parts m1)) 0); [discriminate|].
    simpl in H. split; [exact Hlen|].
    pose proof (parts_loop_true _ _ 0 H) as Hall.
    split; intros [i [Hi Hnth]]; destruct i as [|j]; try lia.
    + rewrite <- nth_error_tl in Hnth.
      now destruct (Hall j "" Hnth).
    + assert (Hj : (S j < List.length (parts m1))%nat).
      { rewrite Hlen. apply nth_error_Some. now rewrite Hnth. }
      destruct (nth_error (tl (parts m1)) j) as [p|] eqn:Hp.
      * destruct (Hall j p Hp) as [_ Hne]. apply Hne.
        replace (0 + j + 1)%nat with (S j) by lia.
        now rewrite (nth_error_nth _ _ _ Hnth).
      * rewrite nth_error_tl in Hp. apply nth_error_None in Hp. lia.
  - intros [-> | [Hlen [H1 H2]]]; [apply VerifyParts_refl|].
    destruct (VerifyParts m1 m2) eqn:E; [reflexivity|].
    destruct (String.eqb_spec m1 m2) as [->|Hneq];
      [now rewrite VerifyParts_refl in E|].
    exfalso. unfold VerifyParts in E.
    apply String.eqb_neq in Hneq. rewrite Hneq in E. cbv zeta in E.
    fold (parts m1) (parts m2) in E.
    rewrite Hlen, Nat.eqb_refl in E.
    pose proof (strings_Split_length m2 MessageChar) as Hpos.
    fold (parts m2) in Hpos.
    destruct (Nat.eqb_spec (List.length (parts m2)) 0) as [|_]; [lia|].
    simpl in E.
    (* some visited segment is empty *)
    assert (Hex : forall ps i,
               parts_loop i ps (parts m2) = false ->
               exists j p, nth_error ps j = Some p
                           /\ (p = "" \/ nth (i + j + 1) (parts m2) "" = "")).
    { induction ps as [|q rest IH]; intros i Hf; [discriminate|].
      simpl in Hf.
      destruct (Nat.eqb_spec (String.length q) 0) as [Hq|Hq].
      - exists 0%nat, q. split; [reflexivity|]. left.
        now apply length_zero_empty.
      - destruct (Nat.eqb_spec
                    (String.length (nth (i + 1) (parts m2) "")) 0)
          as [Hq2|Hq2].
        + exists 0%nat, q. split; [reflexivity|]. right.
          replace (i + 0 + 1)%nat with (i + 1)%nat by lia.
          now apply length_zero_empty.
        + simpl in Hf. destruct (IH (S i) Hf) as [j [p [Hn Hp]]].
          exists (S j), p. split; [exact Hn|].
          now replace (i + S j + 1)%nat with (S i + j + 1)%nat by lia. }
    destruct (Hex _ _ E) as [j [p [Hn [-> | Hp]]]].
    + apply H1. exists (S j). split; [lia|]. now rewrite <- nth_error_tl.
    + apply H2. exists (S j). split; [lia|].
      replace (0 + j + 1)%nat with (S j) in Hp by lia.
      assert (Hj : (S j < List.length (parts m2))%nat).
      { rewrite <- Hlen. rewrite nth_error_tl in Hn.
        apply nth_error_Some. now rewrite Hn. }
      rewrite <- Hp. apply nth_error_nth'. exact Hj.
Qed.

(** X11. [VerifyParts] accepts two strings exactly when they are the same string,
    or split on the slash into the same number of segments, none of which
    but the first is empty. *)
Theorem VerifyParts_true_iff :
  forall m1 m2 : string,
    VerifyParts m1 m2 = true
    <-> m1 = m2
        \/ (List.length (parts m1) = List.length (parts m2)
            /\ ~ has_empty_part m1 /\ ~ has_empty_part m2).
Proof. exact VerifyParts_spec. Qed.

(** X12. The part check does not depend on the order of its two strings. *)
Theorem VerifyParts_symmetric :
  forall m1 m2 : string, VerifyParts m1 m2 = VerifyParts m2 m1.
Proof.
  intros m1 m2. apply eq_true_iff_eq.
  rewrite !VerifyParts_spec.
  split; (intros [H | [Hlen [H1 H2]]]; [left; congruence|]);
    right; repeat split; congruence.
Qed.

Lemma append_associative (a b c : string) : (a ++ b) ++ c = a ++ (b ++ c).
Proof. induction a as [|x a IH]; simpl; [|rewrite IH]; reflexivity. Qed.

Lemma strings_Replace_app (a b : string) (old : ascii) (new : string) :
  strings_Replace (a ++ b) old new
  = strings_Replace a old new ++ strings_Replace b old new.
Proof.
  induction a as [|c a IH]; simpl; [reflexivity|].
  destruct (Ascii.eqb c old); rewrite IH; [|reflexivity].
  now rewrite append_associative.
Qed.

(** The eight replacements, in the order of [GetRegex]. *)
Lemma replacements_char (c : ascii) :
  strings_Replace
    (strings_Replace
       (strings_Replace
          (strings_Replace
             (strings_Replace
                (strings_Replace
                   (strings_Replace
                      (strings_Replace (String c "") "." "\.") "(" "\(")
                   ")" "\)")
                "*" ".*")
             "{" "(")
          "," "|")
       "}" ")")
    "?" "."
  = pattern_char c.
Proof.
  destruct c as [[|] [|] [|] [|] [|] [|] [|] [|]]; reflexivity.
Qed.

Lemma replacements_translate (p : string) :
  strings_Replace
    (strings_Replace
       (strings_Replace
          (strings_Replace
             (strings_Replace
                (strings_Replace
                   (strings_Replace
                      (strings_Replace p "." "\.") "(" "\(")
                   ")" "\)")
                "*" ".*")
             "{" "(")
          "," "|")
       "}" ")")
    "?" "."
  = translate p.
Proof.
  induction p as [|c p IH]; [reflexivity|].
  change (String c p) with (String c "" ++ p) at 1.
  rewrite !strings_Replace_app, IH, replacements_char. reflexivity.
Qed.

Lemma GetRegex_translate (p : string) :
  GetRegex p = regexp.Compile ("^" ++ translate p ++ "$").
Proof. unfold GetRegex. cbv zeta. now rewrite replacements_translate. Qed.

(** X13. The eight replacements of [GetRegex] do not meet: none rewrites what an
    earlier one produced, and together they replace each character of the
    pattern once; so does the translation of two patterns put end to end. *)
Theorem GetRegex_character_wise :
  (forall p : string,
      GetRegex p = regexp.Compile ("^" ++ translate p ++ "$"))
  /\ (forall p q : string, translate (p ++ q) = translate p ++ translate q).
Proof.
  split; [exact GetRegex_translate|].
  intros p q. induction p as [|c p IH]; simpl; [reflexivity|].
  now rewrite IH, append_associative.
Qed.






(** The parser reads the translation of a character outside alternation as
    one item. *)
Lemma parse_glob_char (c : ascii) (t : string)
  (seq : list regexp.Regexp) (lr : bool) (b : nat) :
  is_glob c = true ->
  regexp.parse (pattern_char c ++ t) [] seq [] lr b
  = regexp.parse t [] (item c :: seq) [] (Ascii.eqb c "*") b.
Proof. intros H. by_ascii c H. Qed.

Lemma parse_glob (p : string) :
  all_glob p = true ->
  forall (seq : list regexp.Regexp) (lr : bool) (b : nat),
    regexp.parse (translate p ++ "$") [] seq [] lr b
    = Ret (fold_left (fun acc r => regexp.Concat r acc) seq
             (items p (regexp.Concat regexp.EndText regexp.EmptyMatch))).
Proof.
  induction p as [|c p IH]; intros H seq lr b.
  - reflexivity.
  - simpl in H. apply andb_true_iff in H as [Hc Hp].
    cbn [translate]. rewrite append_associative.
    rewrite (parse_glob_char _ _ _ _ _ Hc), (IH Hp). reflexivity.
Qed.

Lemma GetRegex_glob (p : string) :
  all_glob p = true ->
  GetRegex p
  = Ret (regexp.Concat regexp.BeginText
           (items p (regexp.Concat regexp.EndText regexp.EmptyMatch))).
Proof.
  intros H. rewrite GetRegex_translate. unfold regexp.Compile.
  change (regexp.parse ("^" ++ translate p ++ "$") [] [] [] false
            regexp.structure_budget)
    with (regexp.parse (translate p ++ "$") [] [regexp.BeginText] [] false
            regexp.structure_budget).
  now rewrite (parse_glob p H).
Qed.

(** On ASCII text a code point is a byte. *)
Lemma drop_rune_ascii (x : ascii) (a : string) :
  regexp.is_ascii x = true ->
  regexp.drop (regexp.rune_width (String x a) - 1) a = a.
Proof. intros H. cbn [regexp.rune_width]. now rewrite H. Qed.

(** The loop of the star over single characters of an ASCII text, with fuel
    enough for the text. *)
Lemma star_loop_any (G : string -> bool) (K : bool -> string -> bool) :
  (forall (b : bool) (s : string), all_ascii s = true -> K b s = G s) ->
  forall (a : string) (fuel : nat) (bot : bool),
    all_ascii a = true ->
    (String.length a < fuel)%nat ->
    regexp.star_loop (regexp.matches regexp.AnyCharNotNL) fuel bot a K
    = glob_star G a.
Proof.
  intros HK. induction a as [|x a IH]; intros fuel bot Ha Hfuel.
  - destruct fuel as [|n]; [simpl in Hfuel; lia|].
    simpl. now rewrite (HK _ _ Ha), orb_false_r.
  - destruct fuel as [|n]; [simpl in Hfuel; lia|].
    pose proof Ha as Ha'. simpl in Ha'.
    apply andb_true_iff in Ha' as [Hx Hr].
    cbn [regexp.star_loop regexp.matches glob_star].
    rewrite (HK _ _ Ha), (drop_rune_ascii _ _ Hx). f_equal.
    fold (not_newline x). f_equal.
    assert (Hlt : (String.length a <? String.length (String x a))%nat = true)
      by (apply Nat.ltb_lt; simpl; lia).
    rewrite Hlt. cbn [andb]. apply (IH _ _ Hr). simpl in Hfuel. lia.
Qed.

(** The expression of a pattern without alternation accepts from the head
    of an ASCII text what [glob] accepts. *)
Lemma matches_items (p : string) :
  forall (bot : bool) (a : string),
    all_ascii a = true ->
    regexp.matches
      (items p (regexp.Concat regexp.EndText regexp.EmptyMatch)) bot a
      (fun _ _ => true)
    = glob p a.
Proof.
  induction p as [|c p IH]; intros bot a Ha.
  - now destruct a.
  - cbn [items glob]. unfold item.
    destruct (Ascii.eqb c "?").
    { cbn [regexp.matches]. destruct a as [|x a]; [reflexivity|].
      simpl in Ha. apply andb_true_iff in Ha as [Hx Hr].
      now rewrite (drop_rune_ascii _ _ Hx), (IH _ _ Hr). }
    destruct (Ascii.eqb c "*").
    { cbn [regexp.matches]. apply star_loop_any; [|exact Ha|lia].
      intros b s Hs. now apply IH. }
    cbn [regexp.matches]. destruct a as [|x a]; [reflexivity|].
    simpl in Ha. apply andb_true_iff in Ha as [_ Hr].
    now rewrite (IH _ _ Hr).
Qed.

(** An expression that starts with the anchor matches nowhere but at the
    beginning of the text. *)
Lemma search_anchored (re : regexp.Regexp) (fuel : nat) :
  forall s : string,
    regexp.search fuel (regexp.Concat regexp.BeginText re) false s = false.
Proof.
  induction fuel as [|n IH]; intros s; [reflexivity|].
  destruct s as [|x s]; [reflexivity|].
  cbn [regexp.search regexp.matches andb orb]. apply IH.
Qed.

Lemma MatchString_anchored (re : regexp.Regexp) (a : string) :
  regexp.MatchString (regexp.Concat regexp.BeginText re) a
  = regexp.matches re true a (fun _ _ => true).
Proof.
  unfold regexp.MatchString.
  destruct a as [|x a]; cbn [String.length regexp.search regexp.matches andb].
  - apply orb_false_r.
  - now rewrite search_anchored, orb_false_r.
Qed.

Lemma Match_glob_pattern (msg : Message) (address : string) :
  all_glob (Address msg) = true ->
  all_ascii address = true ->
  Match msg address
  = Ret (VerifyParts address (Address msg) && glob (Address msg) address).
Proof.
  intros H Ha. unfold Match.
  destruct (VerifyParts address (Address msg)); [|reflexivity].
  cbn [negb andb]. rewrite (GetRegex_glob _ H). cbn [bind].
  now rewrite MatchString_anchored, (matches_items _ _ _ Ha).
Qed.



Lemma is_glob_ascii (c : ascii) :
  is_glob c = true -> regexp.is_ascii c = true.
Proof. intros H. by_ascii c H. Qed.

Lemma all_glob_all_ascii (p : string) :
  all_glob p = true -> all_ascii p = true.
Proof.
  induction p as [|c p IH]; simpl; [reflexivity|].
  intros H. apply andb_true_iff in H as [Hc Hp].
  now rewrite (is_glob_ascii c Hc), (IH Hp).
Qed.

Lemma glob_star_head (G : string -> bool) (a : string) :
  G a = true -> glob_star G a = true.
Proof. intros H. destruct a; simpl; now rewrite H. Qed.

Lemma is_glob_not_newline (c : ascii) :
  is_glob c = true -> Ascii.eqb c "?" = true \/ Ascii.eqb c "*" = true ->
  not_newline c = true.
Proof.
  intros H [E|E]; apply Ascii.eqb_eq in E; subst; reflexivity.
Qed.

(** A pattern without alternation, read as a glob, accepts itself. *)
Lemma glob_self (p : string) : glob p p = true.
Proof.
  induction p as [|c p IH]; [reflexivity|].
  cbn [glob].
  destruct (Ascii.eqb_spec c "?") as [->|_]; [now rewrite IH|].
  destruct (Ascii.eqb_spec c "*") as [->|_].
  - cbn [glob_star]. rewrite (glob_star_head _ _ IH).
    apply orb_true_r.
  - now rewrite Ascii.eqb_refl, IH.
Qed.

(** C5, as amended.  On an address that is the pattern itself the part check
    succeeds at once, but [Match] goes on to compile the pattern: the result
    is the error of the compilation when it fails, and otherwise what the
    compiled expression answers on the pattern, with no error; that answer is
    true when the pattern holds no brace, no comma and no operator of the
    expression syntax left as it is, so also when it holds [?], stars, dots
    or parentheses. *)
Theorem Match_exact_address :
  forall msg : Message,
    VerifyParts (Address msg) (Address msg) = true
    /\ Match msg (Address msg)
       = (exp <- GetRegex (Address msg) ;;
          Ret (regexp.MatchString exp (Address msg)))
    /\ (forall e : error,
          GetRegex (Address msg) = Raise e ->
          Match msg (Address msg) = Raise e)
    /\ (all_glob (Address msg) = true -> Match msg (Address msg) = Ret true).
Proof.
  intros msg.
  assert (HM : Match msg (Address msg)
               = (exp <- GetRegex (Address msg) ;;
                  Ret (regexp.MatchString exp (Address msg)))).
  { unfold Match. now rewrite VerifyParts_refl. }
  split; [apply VerifyParts_refl|]. split; [exact HM|]. split.
  - intros e He. now rewrite HM, He.
  - intros Hp.
    rewrite (Match_glob_pattern _ _ Hp (all_glob_all_ascii _ Hp)).
    now rewrite VerifyParts_refl, glob_self.
Qed.

(** Patterns with a question mark, a star and a dot matched against
    themselves, and a pattern that does not compile. *)
Lemma Match_exact_address_witness :
  all_glob "/foo/ba?" = true
  /\ Match {| Address := "/foo/ba?"; Arguments := []; Sender := None |}
       "/foo/ba?" = Ret true
  /\ Match {| Address := "/foo.bar/*"; Arguments := []; Sender := None |}
       "/foo.bar/*" = Ret true
  /\ GetRegex "/foo/{bar" = Raise ErrMissingParen
  /\ Match {| Address := "/foo/{bar"; Arguments := []; Sender := None |}
       "/foo/{bar" = Raise ErrMissingParen.
Proof.
  assert (He : GetRegex "/foo/{bar" = Raise ErrMissingParen) by reflexivity.
  split; [reflexivity|].
  split; [exact (proj2 (proj2 (proj2 (Match_exact_address
            {| Address := "/foo/ba?"; Arguments := []; Sender := None |})))
            eq_refl)|].
  split; [exact (proj2 (proj2 (proj2 (Match_exact_address
            {| Address := "/foo.bar/*"; Arguments := []; Sender := None |})))
            eq_refl)|].
  split; [exact He|].
  exact (proj1 (proj2 (proj2 (Match_exact_address
           {| Address := "/foo/{bar"; Arguments := []; Sender := None |})))
           ErrMissingParen He).
Defined.

(** C5, as stated, fails: an address equal to a pattern with an unclosed
    brace gives the compilation error, and an address equal to a pattern
    with an alternation gives false. *)
Lemma Match_exact_counterexample :
  ~ (forall p : string,
        Match {| Address := p; Arguments := []; Sender := None |} p
        = Ret true)
  /\ Match {| Address := "/foo/{bar"; Arguments := []; Sender := None |}
       "/foo/{bar" = Raise ErrMissingParen
  /\ Match {| Address := "/foo/{a,b}"; Arguments := []; Sender := None |}
       "/foo/{a,b}" = Ret false.
Proof.
  split; [|split; reflexivity].
  intros H. specialize (H "/foo/{bar"). discriminate H.
Qed.

Lemma matches_literals_eqb (p : string) :
  forall (bot : bool) (a : string),
    regexp.matches
      (literals p (regexp.Concat regexp.EndText regexp.EmptyMatch)) bot a
      (fun _ _ => true)
    = String.eqb a p.
Proof.
  induction p as [|c p IH]; intros bot a.
  - now destruct a.
  - cbn [literals regexp.matches]. destruct a as [|x a]; [reflexivity|].
    simpl. now rewrite IH.
Qed.

(** X16. A pattern of plain characters matches one address, itself. *)
Theorem Match_plain_pattern :
  forall (msg : Message) (address : string),
    all_plain (Address msg) = true ->
    Match msg address = Ret (String.eqb address (Address msg)).
Proof.
  intros msg address H. unfold Match.
  destruct (String.eqb_spec address (Address msg)) as [->|Hneq].
  - rewrite VerifyParts_refl. cbn [negb].
    rewrite (GetRegex_plain _ H). cbn [bind].
    now rewrite MatchString_plain.
  - destruct (VerifyParts address (Address msg)); [|reflexivity].
    cbn [negb]. rewrite (GetRegex_plain _ H). cbn [bind].
    rewrite MatchString_anchored, matches_literals_eqb.
    apply String.eqb_neq in Hneq. now rewrite Hneq.
Qed.

(** A literal pattern against itself and against a longer address. *)
Lemma Match_plain_pattern_witness :
  all_plain "/foo/bar" = true
  /\ Match {| Address := "/foo/bar"; Arguments := []; Sender := None |}
       "/foo/bar" = Ret true
  /\ Match {| Address := "/foo/bar"; Arguments := []; Sender := None |}
       "/foo/barn" = Ret false.
Proof.
  split; [reflexivity|]. split.
  - exact (Match_plain_pattern
             {| Address := "/foo/bar"; Arguments := []; Sender := None |}
             "/foo/bar" eq_refl).
  - exact (Match_plain_pattern
             {| Address := "/foo/bar"; Arguments := []; Sender := None |}
             "/foo/barn" eq_refl).
Defined.

(** X17. An address that matches has passed the part check: it is the pattern
    itself, or it has as many segments as the pattern and neither has an
    empty segment after the first. *)
Theorem Match_true_same_parts :
  forall (msg : Message) (address : string),
    Match msg address = Ret true ->
    address = Address msg
    \/ (List.length (parts address) = List.length (parts (Address msg))
        /\ ~ has_empty_part address /\ ~ has_empty_part (Address msg)).
Proof.
  intros msg address H. apply VerifyParts_spec.
  unfold Match in H.
  destruct (VerifyParts address (Address msg)); [reflexivity|].
  discriminate H.
Qed.

(** A wildcard in the last of three segments. *)
Lemma Match_true_same_parts_witness :
  Match {| Address := "/foo/*"; Arguments := []; Sender := None |} "/foo/bar"
  = Ret true
  /\ ("/foo/bar" = "/foo/*"
      \/ (List.length (parts "/foo/bar") = List.length (parts "/foo/*")
          /\ ~ has_empty_part "/foo/bar" /\ ~ has_empty_part "/foo/*")).
Proof.
  assert (H : Match {| Address := "/foo/*"; Arguments := [];
                       Sender := None |} "/foo/bar" = Ret true)
    by reflexivity.
  split; [exact H|].
  exact (Match_true_same_parts _ _ H).
Defined.

(** X18. [Match] reports an error exactly when the part check passes and the
    pattern does not compile: a malformed pattern goes unnoticed, with the
    answer false, on every address that fails the part check. *)
Theorem Match_error_iff :
  forall (msg : Message) (address : string) (e : error),
    Match msg address = Raise e
    <-> VerifyParts address (Address msg) = true
        /\ GetRegex (Address msg) = Raise e.
Proof.
  intros msg address e. unfold Match.
  destruct (VerifyParts address (Address msg)); cbn [negb].
  - destruct (GetRegex (Address msg)) as [re|e'|]; cbn [bind].
    + split; [discriminate | intros [_ H]; discriminate H].
    + split; [intros H; injection H as ->; now split
             | intros [_ H]; injection H as ->; reflexivity].
    + split; [discriminate | intros [_ H]; discriminate H].
  - split; [discriminate | intros [H _]; discriminate H].
Qed.

(** X10. The sender is attached to the message and plays no other part in the
    parsing. *)
Theorem ParseMessage_sender :
  forall (data : bytes) (sender : option Addr),
    ParseMessage data sender
    = (m <- ParseMessage data None ;;
       Ret {| Address := Address m; Arguments := Arguments m;
              Sender := sender |}).
Proof.
  intros data sender. unfold ParseMessage.
  destruct (ReadString data) as [[address idx]| |]; cbn [bind];
    try reflexivity.
  destruct (slice_from data idx) as [d| |]; cbn [bind]; try reflexivity.
  destruct (ReadString d) as [[typetags idx']| |]; cbn [bind];
    try reflexivity.
  destruct (slice_from d idx') as [d'| |]; cbn [bind]; try reflexivity.
  destruct (slice_from d' idx') as [rest| |]; cbn [bind]; try reflexivity.
  destruct (ReadArguments _ rest) as [args| |]; reflexivity.
Qed.

(** X5. The tags tell the variants apart, and the two booleans; a boolean is
    read back from its tag alone, whatever the data, and no byte is
    consumed. *)
Theorem Typetag_separates :
  (forall a b : Arg.Argument,
      Arg.Typetag a = Arg.Typetag b ->
      kind_of a = kind_of b
      /\ (Arg.ReadBool a = Arg.ReadBool b))
  /\ (forall (b : bool) (data : bytes),
        ParseArgument (Arg.Typetag (Arg.Bool b)) data
        = Ret (Arg.Bool b, 0%Z)).
Proof.
  split.
  - intros a b H.
    destruct a as [i|f|[|]|s|x]; destruct b as [j|g|[|]|t|y];
      try discriminate H; split; reflexivity.
  - intros [|] data; reflexivity.
Qed.

(** The two tags of the booleans. *)
Lemma Typetag_separates_witness :
  Arg.Typetag (Arg.Bool true) = Arg.Typetag (Arg.Bool true)
  /\ kind_of (Arg.Bool true) = kind_of (Arg.Bool true).
Proof.
  split; [reflexivity|].
  exact (proj1 (proj1 Typetag_separates (Arg.Bool true) (Arg.Bool true)
                  eq_refl)).
Defined.

(** ** Properties of the printing *)

Local Open Scope list_scope.

Lemma list_byte_of_string_app (s t : string) :
  list_byte_of_string (s ++ t)%string
  = list_byte_of_string s ++ list_byte_of_string t.
Proof.
  induction s as [|c s IH]; [reflexivity|].
  change (list_byte_of_string (String c s ++ t)%string)
    with (byte_of_ascii c :: list_byte_of_string (s ++ t)%string).
  now rewrite IH.
Qed.

Lemma Print_header (msg : Message) :
  list_byte_of_string
    (Address msg ++ string_of_list_byte (Typetags msg))%string
  = list_byte_of_string (Address msg) ++ Typetags msg.
Proof.
  now rewrite list_byte_of_string_app, list_byte_of_string_of_list_byte.
Qed.

Lemma WriteTo_text (W : Type) (Write : W -> bytes -> W * (Z * option error))
  (format_f : Z -> string) (a : Arg.Argument) (w : W) :
  WriteTo W Write format_f a w = Write w (text_of format_f a).
Proof. now destruct a. Qed.

Lemma Print_arguments_Buffer (format_f : Z -> string)
  (args : list Arg.Argument) :
  forall w : bytes,
    Print_arguments bytes Buffer_sink format_f args w
    = (w ++ List.concat (map (text_of format_f) args), None).
Proof.
  induction args as [|a args IH]; intros w; simpl.
  - now rewrite app_nil_r.
  - rewrite WriteTo_text. unfold Buffer_sink at 1. cbv iota beta.
    now rewrite IH, app_assoc.
Qed.

(** X19. Into a buffer, [Print] never fails, and appends the address, the padded
    type tags and the text of each argument, in this order. *)
Theorem Print_to_buffer :
  forall (format_f : Z -> string) (msg : Message) (w : bytes),
    Print bytes Buffer_sink format_f msg w
    = (w ++ list_byte_of_string (Address msg) ++ Typetags msg
         ++ List.concat (map (text_of format_f) (Arguments msg)),
       None).
Proof.
  intros format_f msg w. unfold Print, Fprintf.
  rewrite Print_header. unfold Buffer_sink at 1. cbv iota beta.
  rewrite Print_arguments_Buffer. now rewrite <- !app_assoc.
Qed.

Lemma Print_arguments_Budget (format_f : Z -> string) (e : error)
  (args : list Arg.Argument) :
  forall (k : nat) (buf : bytes),
    Print_arguments (nat * bytes) (Budget_sink e) format_f args (k, buf)
    = ((k - List.length args,
        buf ++ List.concat (firstn k (map (text_of format_f) args)))%nat,
       if (k <? List.length args)%nat then Some e else None).
Proof.
  induction args as [|a args IH]; intros k buf.
  - simpl. now rewrite Nat.sub_0_r, firstn_nil, app_nil_r.
  - cbn [Print_arguments]. rewrite WriteTo_text.
    destruct k as [|k].
    + simpl. now rewrite app_nil_r.
    + unfold Budget_sink at 1. cbn [fst snd]. cbv iota beta.
      rewrite IH. cbn [map firstn List.concat List.length Nat.sub].
      rewrite <- app_assoc.
      now change (S k <? S (List.length args))%nat
        with (k <? List.length args)%nat.
Qed.

(** X20. [Print] stops at the first write that fails and returns its error: on a
    writer that takes [k] writes, the address with the type tags and the
    arguments are written in order up to the [k]-th piece, nothing after it,
    and the error is returned exactly when a piece is left. *)
Theorem Print_stops_at_first_error :
  forall (format_f : Z -> string) (e : error) (msg : Message)
         (k : nat) (buf : bytes),
    Print (nat * bytes) (Budget_sink e) format_f msg (k, buf)
    = ((k - S (List.length (Arguments msg)),
        buf ++ List.concat (firstn k (pieces format_f msg)))%nat,
       if (k <=? List.length (Arguments msg))%nat then Some e else None).
Proof.
  intros format_f e msg k buf. unfold Print, Fprintf, pieces.
  rewrite Print_header. destruct k as [|k].
  - simpl. now rewrite app_nil_r.
  - unfold Budget_sink at 1. cbn [fst snd]. cbv iota beta.
    rewrite Print_arguments_Budget.
    cbn [firstn List.concat Nat.sub]. now rewrite <- app_assoc.
Qed.
